(** * Splide: DOM utilities and the Arrows component

    A shallow embedding of [utils/dom.js] (the DOM helper functions) and of
    [components/arrows/index.js] (the prev/next arrows component) over an
    explicit model of the browser's DOM: a heap of nodes addressed by index,
    threaded through a state-and-exception monad. *)

From Stdlib Require Import ZArith String Ascii List Bool Lia DecimalString.
From Stdlib Require Import DecimalPos DecimalZ.
From stdpp Require Import base option list strings.

Open Scope string_scope.
Open Scope list_scope.

(** ** JavaScript values *)

(** The primitive values that reach this code: option values, attribute
    values, style values.  Numbers are the integers (option values such as
    [perPage], [perMove], indices and the icon size are integers). *)
Inductive Value :=
| VUndefined
| VNull
| VBool (b : bool)
| VNum (z : Z)
| VStr (s : string).

(** ToBoolean. *)
Definition truthy (v : Value) : bool :=
  match v with
  | VUndefined | VNull => false
  | VBool b => b
  | VNum z => negb (z =? 0)%Z
  | VStr s => negb (String.eqb s "")
  end.

(** [Number.MAX_SAFE_INTEGER], 2^53 - 1. *)
Definition MAX_SAFE_INTEGER : Z := 9007199254740991.

(** A value whose conversion to a string is modelled exactly: every value
    but a number beyond the safe integers.  JavaScript prints an integer of
    magnitude up to 2^53 - 1 with all its decimal digits; beyond, a number
    is a rounded double, and from 10^21 on it is printed with an
    exponent. *)
Definition safe_value (v : Value) : Prop :=
  match v with
  | VNum z => (Z.abs z <= MAX_SAFE_INTEGER)%Z
  | _ => True
  end.

(** ToString (template literals, DOMString conversion); for a number, the
    decimal digits of the integer, which is JavaScript's answer on every
    [safe_value]. *)
Definition toString (v : Value) : string :=
  match v with
  | VUndefined => "undefined"
  | VNull => "null"
  | VBool true => "true"
  | VBool false => "false"
  | VNum z => NilZero.string_of_int (Z.to_int z)
  | VStr s => s
  end.

(** [a || b] on values. *)
Definition or_else (a b : Value) : Value := if truthy a then a else b.

(** A value that is either one item or an array of items
    ([Element|Element[]], [string|string[]]). *)
Inductive OneOrMany (A : Type) :=
| One (a : A)
| Many (l : list A).
Arguments One {A} a.
Arguments Many {A} l.

(** ** Strings *)

(** The double quote. *)
Definition quot : ascii := ascii_of_nat 34.

Definition is_ws (c : ascii) : bool :=
  let n := nat_of_ascii c in
  ((n =? 9) || (n =? 10) || (n =? 12) || (n =? 13) || (n =? 32))%nat.

Definition is_upper (c : ascii) : bool :=
  let n := nat_of_ascii c in ((65 <=? n) && (n <=? 90))%nat.

Definition is_alpha (c : ascii) : bool :=
  let n := nat_of_ascii c in
  (((65 <=? n) && (n <=? 90)) || ((97 <=? n) && (n <=? 122)))%nat.

Definition lower_ascii (c : ascii) : ascii :=
  if is_upper c then ascii_of_nat (nat_of_ascii c + 32) else c.

Fixpoint lower (s : string) : string :=
  match s with
  | EmptyString => EmptyString
  | String c s' => String (lower_ascii c) (lower s')
  end.

Fixpoint string_forallb (p : ascii -> bool) (s : string) : bool :=
  match s with
  | EmptyString => true
  | String c s' => p c && string_forallb p s'
  end.


(** [s.split(sep)] for a one-character separator; [acc] is the segment
    being read. *)
Fixpoint split_from (sep : ascii) (acc s : string) : list string :=
  match s with
  | EmptyString => [acc]
  | String c s' =>
      if Ascii.eqb c sep then acc :: split_from sep EmptyString s'
      else split_from sep (acc ++ String c EmptyString) s'
  end.

Definition split (sep : ascii) (s : string) : list string :=
  split_from sep EmptyString s.

(** [s.split(' ')[0]]: [split] never returns the empty array. *)
Definition first_part (s : string) : string :=
  match split " " s with
  | p :: _ => p
  | [] => EmptyString
  end.

(** No space in [s]. *)
Definition spaceless (s : string) : bool :=
  string_forallb (fun c => negb (Ascii.eqb c " ")) s.

(** A name that is not the empty string. *)
Definition named (s : string) : bool := negb (String.eqb s "").

(** Split on ASCII whitespace, dropping empty segments. *)
Fixpoint ws_split (acc s : string) : list string :=
  match s with
  | EmptyString => if String.eqb acc "" then [] else [acc]
  | String c s' =>
      if is_ws c then
        if String.eqb acc "" then ws_split EmptyString s'
        else acc :: ws_split EmptyString s'
      else ws_split (acc ++ String c EmptyString) s'
  end.

(** DOM ordered sets: appending keeps the first occurrence. *)
Definition ordered_append (l : list string) (x : string) : list string :=
  if decide (x ∈ l) then l else l ++ [x].

Definition ordered_set (l : list string) : list string :=
  foldl ordered_append [] l.

(** The ordered set parser and serializer of the DOM standard. *)
Definition parse_tokens (s : string) : list string :=
  ordered_set (ws_split EmptyString s).

Definition serialize_tokens (l : list string) : string :=
  String.concat " " l.

(** ** Outcomes of running code *)

Inductive Exn :=
| TypeError
| SyntaxError
| InvalidCharacterError
| NotFoundError
| HierarchyRequestError.

(** A run ends with a value, or with an exception (the state is the one at
    the throw: nothing is rolled back), or leaves the part of the platform
    this development models. *)
Inductive Res (S A : Type) :=
| Val (a : A) (s : S)
| Throw (e : Exn) (s : S)
| Unmodelled.
Arguments Val {S A} a s.
Arguments Throw {S A} e s.
Arguments Unmodelled {S A}.

Definition M (S A : Type) : Type := S -> Res S A.

Definition ret {S A} (a : A) : M S A := fun s => Val a s.

Definition and_then {S A B} (m : M S A) (k : A -> M S B) : M S B :=
  fun s =>
    match m s with
    | Val a s' => k a s'
    | Throw e s' => Throw e s'
    | Unmodelled => Unmodelled
    end.

Definition throw {S A} (e : Exn) : M S A := fun s => Throw e s.
Definition unmodelled {S A} : M S A := fun _ => Unmodelled.
Definition get_state {S} : M S S := fun s => Val s s.
Definition modify {S} (f : S -> S) : M S unit := fun s => Val tt (f s).

Declare Scope js_scope.
Delimit Scope js_scope with js.
Notation "'let*' x ':=' m 'in' k" := (and_then m (fun x => k))
  (at level 10, x name, m at level 100, k at level 200) : js_scope.
Notation "m ';;;' k" := (and_then m (fun _ => k))
  (at level 100, k at level 200, right associativity) : js_scope.
Open Scope js_scope.

(** [array.forEach(f)]. *)
Fixpoint forEach {S A} (l : list A) (f : A -> M S unit) : M S unit :=
  match l with
  | [] => ret tt
  | x :: l' => f x ;;; forEach l' f
  end.

(** Run [m] on the component [get_part] of a larger state. *)
Definition zoom {S T A} (get_part : T -> S) (set_part : S -> T -> T)
    (m : M S A) : M T A :=
  fun t =>
    match m (get_part t) with
    | Val a s => Val a (set_part s t)
    | Throw e s => Throw e (set_part s t)
    | Unmodelled => Unmodelled
    end.

(** ** HTML fragments *)

(** The part of the HTML parsing algorithm that [innerHTML] runs on the
    markup this code builds: the tokenizer's tag and attribute states, and
    tree construction for a [div] context over [span], [div], [button] and
    SVG content.  Markup outside that part (character references, comments,
    other elements) is answered with [None]. *)
(** Elements are HTML elements or SVG elements. *)
Inductive Namespace := HTML | SVG.

Module Html.

#[warnings="-register-all"]
Inductive Tree :=
| Elem (ns : Namespace) (name : string) (attrs : list (string * string))
    (kids : list Tree)
| Chars (s : string).

(** *** Tokens *)

Inductive Token :=
| TChar (c : ascii)
| TStart (name : string) (attrs : list (string * string))
    (self_closing : bool)
| TEnd (name : string).

(** A tag token under construction; [pending] is the attribute being
    read. *)
Record Tag := mkTag {
  is_end : bool;
  tag_name : string;
  tag_attrs : list (string * string);
  pending : option (string * string)
}.

Inductive Quote := DQ | SQ | Unquoted.

Inductive TState :=
| Data
| TagOpen
| EndTagOpen
| TagName (t : Tag)
| BeforeAttrName (t : Tag)
| AttrName (t : Tag)
| AfterAttrName (t : Tag)
| BeforeAttrValue (t : Tag)
| AttrValue (q : Quote) (t : Tag)
| AfterAttrValue (t : Tag)
| SelfClosing (t : Tag)
| Beyond.

Definition push_char (s : string) (c : ascii) : string :=
  s ++ String c EmptyString.

(** An attribute whose name is already on the token is dropped. *)
Definition commit (t : Tag) : Tag :=
  match pending t with
  | None => t
  | Some (n, v) =>
      mkTag (is_end t) (tag_name t)
        (if existsb (fun kv => String.eqb (fst kv) n) (tag_attrs t)
         then tag_attrs t else tag_attrs t ++ [(n, v)])
        None
  end.

Definition start_attr (t : Tag) (n : string) : Tag :=
  let t' := commit t in
  mkTag (is_end t') (tag_name t') (tag_attrs t') (Some (n, EmptyString)).

Definition name_push (t : Tag) (c : ascii) : Tag :=
  mkTag (is_end t) (tag_name t) (tag_attrs t)
    (match pending t with
     | Some (n, v) => Some (push_char n (lower_ascii c), v)
     | None => Some (String (lower_ascii c) EmptyString, EmptyString)
     end).

Definition value_push (t : Tag) (c : ascii) : Tag :=
  mkTag (is_end t) (tag_name t) (tag_attrs t)
    (match pending t with
     | Some (n, v) => Some (n, push_char v c)
     | None => None
     end).

Definition emit (t : Tag) (sc : bool) : list Token :=
  let t' := commit t in
  if is_end t' then [TEnd (tag_name t')]
  else [TStart (tag_name t') (tag_attrs t') sc].

Definition is_nul (c : ascii) : bool := (nat_of_ascii c =? 0)%nat.

(** One character in each state; a reconsumed character is handed to the
    next state's function. *)
Definition data_step (c : ascii) : TState * list Token :=
  if Ascii.eqb c "&" || is_nul c then (Beyond, [])
  else if Ascii.eqb c "<" then (TagOpen, [])
  else (Data, [TChar c]).

Definition tag_name_step (t : Tag) (c : ascii) : TState * list Token :=
  if is_ws c then (BeforeAttrName t, [])
  else if Ascii.eqb c "/" then (SelfClosing t, [])
  else if Ascii.eqb c ">" then (Data, emit t false)
  else if is_nul c then (Beyond, [])
  else (TagName (mkTag (is_end t) (push_char (tag_name t) (lower_ascii c))
                   (tag_attrs t) (pending t)), []).

Definition tag_open_step (c : ascii) : TState * list Token :=
  if Ascii.eqb c "!" || Ascii.eqb c "?" then (Beyond, [])
  else if Ascii.eqb c "/" then (EndTagOpen, [])
  else if is_alpha c then tag_name_step (mkTag false EmptyString [] None) c
  else let '(st, out) := data_step c in (st, TChar "<" :: out).

Definition end_tag_open_step (c : ascii) : TState * list Token :=
  if is_alpha c then tag_name_step (mkTag true EmptyString [] None) c
  else if Ascii.eqb c ">" then (Data, [])
  else (Beyond, []).

Definition after_attr_name_step (t : Tag) (c : ascii)
    : TState * list Token :=
  if is_ws c then (AfterAttrName t, [])
  else if Ascii.eqb c "/" then (SelfClosing t, [])
  else if Ascii.eqb c "=" then (BeforeAttrValue t, [])
  else if Ascii.eqb c ">" then (Data, emit t false)
  else if is_nul c then (Beyond, [])
  else (AttrName (name_push (start_attr t EmptyString) c), []).

Definition attr_name_step (t : Tag) (c : ascii) : TState * list Token :=
  if is_ws c || Ascii.eqb c "/" || Ascii.eqb c ">" then
    after_attr_name_step t c
  else if Ascii.eqb c "=" then (BeforeAttrValue t, [])
  else if is_nul c then (Beyond, [])
  else (AttrName (name_push t c), []).

Definition before_attr_name_step (t : Tag) (c : ascii)
    : TState * list Token :=
  if is_ws c then (BeforeAttrName t, [])
  else if Ascii.eqb c "/" || Ascii.eqb c ">" then
    after_attr_name_step (commit t) c
  else if Ascii.eqb c "=" then (AttrName (start_attr t "="), [])
  else attr_name_step (start_attr t EmptyString) c.

Definition attr_value_step (q : Quote) (t : Tag) (c : ascii)
    : TState * list Token :=
  if Ascii.eqb c "&" || is_nul c then (Beyond, [])
  else
    match q with
    | DQ => if Ascii.eqb c quot then (AfterAttrValue t, [])
            else (AttrValue DQ (value_push t c), [])
    | SQ => if Ascii.eqb c "'" then (AfterAttrValue t, [])
            else (AttrValue SQ (value_push t c), [])
    | Unquoted =>
        if is_ws c then (BeforeAttrName t, [])
        else if Ascii.eqb c ">" then (Data, emit t false)
        else (AttrValue Unquoted (value_push t c), [])
    end.

Definition before_attr_value_step (t : Tag) (c : ascii)
    : TState * list Token :=
  if is_ws c then (BeforeAttrValue t, [])
  else if Ascii.eqb c quot then (AttrValue DQ t, [])
  else if Ascii.eqb c "'" then (AttrValue SQ t, [])
  else if Ascii.eqb c ">" then (Data, emit t false)
  else attr_value_step Unquoted t c.

Definition after_attr_value_step (t : Tag) (c : ascii)
    : TState * list Token :=
  if is_ws c then (BeforeAttrName t, [])
  else if Ascii.eqb c "/" then (SelfClosing t, [])
  else if Ascii.eqb c ">" then (Data, emit t false)
  else before_attr_name_step t c.

Definition self_closing_step (t : Tag) (c : ascii) : TState * list Token :=
  if Ascii.eqb c ">" then (Data, emit t true)
  else before_attr_name_step t c.

Definition step (st : TState) (c : ascii) : TState * list Token :=
  match st with
  | Data => data_step c
  | TagOpen => tag_open_step c
  | EndTagOpen => end_tag_open_step c
  | TagName t => tag_name_step t c
  | BeforeAttrName t => before_attr_name_step t c
  | AttrName t => attr_name_step t c
  | AfterAttrName t => after_attr_name_step t c
  | BeforeAttrValue t => before_attr_value_step t c
  | AttrValue q t => attr_value_step q t c
  | AfterAttrValue t => after_attr_value_step t c
  | SelfClosing t => self_closing_step t c
  | Beyond => (Beyond, [])
  end.

(** At the end of the input an unfinished tag is dropped. *)
Definition at_eof (st : TState) : option (list Token) :=
  match st with
  | Data => Some []
  | TagOpen => Some [TChar "<"]
  | EndTagOpen => Some [TChar "<"; TChar "/"]
  | Beyond => None
  | _ => Some []
  end.

Fixpoint tokenize (st : TState) (s : string) : option (list Token) :=
  match s with
  | EmptyString => at_eof st
  | String c s' =>
      match step st c with
      | (Beyond, _) => None
      | (st', out) => app out <$> tokenize st' s'
      end
  end.


(** CR LF and CR become LF before tokenizing. *)
Fixpoint normalize_newlines (s : string) : string :=
  match s with
  | EmptyString => EmptyString
  | String c s' =>
      if (nat_of_ascii c =? 13)%nat then
        match s' with
        | String d _ =>
            if (nat_of_ascii d =? 10)%nat then normalize_newlines s'
            else String (ascii_of_nat 10) (normalize_newlines s')
        | EmptyString => String (ascii_of_nat 10) EmptyString
        end
      else String c (normalize_newlines s')
  end.





(** *** Tree construction *)

(** An open element: its children so far, newest first. *)
Record Frame := mkFrame {
  f_ns : Namespace;
  f_name : string;
  f_attrs : list (string * string);
  f_kids : list Tree
}.

(** The stack of open elements above the fragment's root (top first), and
    the root's children so far (newest first). *)
Definition Builder : Type := list Frame * list Tree.

Definition close (f : Frame) : Tree :=
  Elem (f_ns f) (f_name f) (f_attrs f) (rev (f_kids f)).

Definition add_kid (t : Tree) (b : Builder) : Builder :=
  match b with
  | ([], top) => ([], t :: top)
  | (f :: fs, top) =>
      (mkFrame (f_ns f) (f_name f) (f_attrs f) (t :: f_kids f) :: fs, top)
  end.

(** A character joins the text node just before it, if there is one. *)
Definition join_char (c : ascii) (kids : list Tree) : list Tree :=
  match kids with
  | Chars s :: rest => Chars (push_char s c) :: rest
  | _ => Chars (String c EmptyString) :: kids
  end.

Definition add_char (c : ascii) (b : Builder) : Builder :=
  match b with
  | ([], top) => ([], join_char c top)
  | (f :: fs, top) =>
      (mkFrame (f_ns f) (f_name f) (f_attrs f) (join_char c (f_kids f)) :: fs,
       top)
  end.

Definition push (f : Frame) (b : Builder) : Builder := (f :: fst b, snd b).

Definition pop (b : Builder) : Builder :=
  match b with
  | ([], top) => b
  | (f :: fs, top) => add_kid (close f) (fs, top)
  end.

Definition html_names : list string := ["span"; "div"; "button"].
Definition svg_names : list string :=
  ["svg"; "path"; "g"; "circle"; "rect"; "line"; "ellipse"; "polygon";
   "polyline"].
Definition svg_plain_attrs : list string :=
  ["xmlns"; "width"; "height"; "d"; "class"; "id"; "x"; "y"; "fill";
   "stroke"; "transform"; "style"; "points"; "cx"; "cy"; "r"; "rx"; "ry";
   "x1"; "y1"; "x2"; "y2"].

Definition mem (x : string) (l : list string) : bool :=
  existsb (String.eqb x) l.

(** The elements of the special category among [html_names]. *)
Definition special (f : Frame) : bool :=
  match f_ns f with
  | HTML => mem (f_name f) ["div"; "button"]
  | SVG => false
  end.

Definition is_html (name : string) (f : Frame) : bool :=
  match f_ns f with
  | HTML => String.eqb (f_name f) name
  | SVG => false
  end.

Definition is_svg (f : Frame) : bool :=
  match f_ns f with SVG => true | HTML => false end.

(** Attribute names of SVG elements get their mixed case back. *)
Definition adjust_svg_attr (kv : string * string)
    : option (string * string) :=
  if String.eqb (fst kv) "viewbox" then Some ("viewBox", snd kv)
  else if mem (fst kv) svg_plain_attrs then Some kv
  else None.

Definition adjust_svg_attrs (l : list (string * string))
    : option (list (string * string)) :=
  mapM adjust_svg_attr l.

(** Index of the first frame satisfying [p], unless a frame satisfying
    [stop] comes first. *)
Fixpoint find_frame (p stop : Frame -> bool) (l : list Frame)
    : option nat :=
  match l with
  | [] => None
  | f :: l' =>
      if p f then Some 0
      else if stop f then None
      else S <$> find_frame p stop l'
  end.

Definition pop_through (k : nat) (b : Builder) : Builder :=
  Nat.iter (S k) pop b.

Definition in_foreign (b : Builder) : bool :=
  match fst b with
  | f :: _ => is_svg f
  | [] => false
  end.

Definition insert_svg (name : string) (attrs : list (string * string))
    (sc : bool) (b : Builder) : option Builder :=
  attrs' ← adjust_svg_attrs attrs;
  let b' := push (mkFrame SVG name attrs' []) b in
  Some (if sc then pop b' else b').

Definition start_tag (name : string) (attrs : list (string * string))
    (sc : bool) (b : Builder) : option Builder :=
  if in_foreign b then
    if mem name svg_names then insert_svg name attrs sc b else None
  else if String.eqb name "svg" then insert_svg name attrs sc b
  else if String.eqb name "button" then
    let b' := match find_frame (is_html "button") (fun _ => false) (fst b) with
              | Some k => pop_through k b
              | None => b
              end in
    Some (push (mkFrame HTML name attrs []) b')
  else if mem name html_names then Some (push (mkFrame HTML name attrs []) b)
  else None.

(** An end tag among HTML elements: [div] and [button] close the nearest
    one in scope; any other name stops at a special element. *)
Definition end_tag_in_body (name : string) (b : Builder) : Builder :=
  let stop := if mem name ["div"; "button"] then (fun _ => false)
              else special in
  match find_frame (is_html name) stop (fst b) with
  | Some k => pop_through k b
  | None => b
  end.

(** An end tag in foreign content closes the nearest SVG element of that
    name above the first HTML element, and is otherwise handled as in
    HTML content. *)
Definition end_tag (name : string) (b : Builder) : option Builder :=
  if mem name html_names || mem name svg_names then
    match
      find_frame (fun f => is_svg f && String.eqb (f_name f) name)
        (fun f => negb (is_svg f)) (fst b)
    with
    | Some k => Some (pop_through k b)
    | None => Some (end_tag_in_body name b)
    end
  else None.

Definition token_step (t : Token) (b : Builder) : option Builder :=
  match t with
  | TChar c => Some (add_char c b)
  | TStart name attrs sc => start_tag name attrs sc b
  | TEnd name => end_tag name b
  end.

Fixpoint build (ts : list Token) (b : Builder) : option Builder :=
  match ts with
  | [] => Some b
  | t :: ts' => b' ← token_step t b; build ts' b'
  end.

(** At the end of the input every open element is closed. *)
Definition finish (b : Builder) : list Tree :=
  rev (snd (Nat.iter (List.length (fst b)) pop b)).

(** The children that [div.innerHTML = html] gives the [div]. *)
Definition parse_fragment (html : string) : option (list Tree) :=
  ts ← tokenize Data (normalize_newlines html);
  b ← build ts ([], []);
  Some (finish b).

End Html.

(** ** The DOM *)

Module Dom.

(** Element and text nodes.  Attributes are kept in document order. *)
Inductive NodeKind :=
| Element (ns : Namespace) (localName : string)
    (attributes : list (string * string))
| Text (data : string).

(** [expando_disabled] is the own property [disabled] of a node whose
    interface does not define one (a [div], an [a], a text node); on form
    controls the property is the [disabled] content attribute instead. *)
Record Node := mkNode {
  kind : NodeKind;
  parent : option nat;
  children : list nat;
  expando_disabled : option bool
}.

(** The heap of all nodes ever created; a reference is an index into it.
    Every parent is an element, so [parentElement] is [parent]. *)
Abbreviation Heap := (list Node).

(** [Element | null] (and [undefined], falsy alike). *)
Abbreviation Ref := (option nat).

Definition with_kind (k : NodeKind) (n : Node) : Node :=
  mkNode k (parent n) (children n) (expando_disabled n).
Definition with_parent (p : option nat) (n : Node) : Node :=
  mkNode (kind n) p (children n) (expando_disabled n).
Definition with_children (l : list nat) (n : Node) : Node :=
  mkNode (kind n) (parent n) l (expando_disabled n).
Definition with_expando (d : option bool) (n : Node) : Node :=
  mkNode (kind n) (parent n) (children n) d.

Definition is_element (n : Node) : bool :=
  match kind n with Element _ _ _ => true | Text _ => false end.

(** *** Attribute lists *)

Fixpoint attr_get (name : string) (l : list (string * string))
    : option string :=
  match l with
  | [] => None
  | (k, v) :: l' => if String.eqb k name then Some v else attr_get name l'
  end.

Fixpoint attr_set (name value : string) (l : list (string * string))
    : list (string * string) :=
  match l with
  | [] => [(name, value)]
  | (k, v) :: l' =>
      if String.eqb k name then (k, value) :: l'
      else (k, v) :: attr_set name value l'
  end.

Definition attr_remove (name : string) (l : list (string * string))
    : list (string * string) :=
  List.filter (fun kv => negb (String.eqb (fst kv) name)) l.

(** *** Names *)

Definition name_breaker (c : ascii) : bool :=
  is_ws c || (nat_of_ascii c =? 0)%nat || Ascii.eqb c "/" || Ascii.eqb c ">".

(** A valid attribute local name: not empty, no ASCII whitespace, NUL, [/],
    [=] or [>]. *)
Definition valid_attribute_name (s : string) : bool :=
  negb (String.eqb s "")
  && string_forallb (fun c => negb (name_breaker c || Ascii.eqb c "=")) s.

Definition name_char (c : ascii) : bool :=
  let n := nat_of_ascii c in
  (is_alpha c || ((48 <=? n) && (n <=? 57)) || (n =? 45) || (n =? 46)
   || (n =? 58) || (n =? 95) || (128 <=? n))%nat.

(** A valid element local name. *)
Definition valid_element_name (s : string) : bool :=
  match s with
  | EmptyString => false
  | String c s' =>
      if is_alpha c then string_forallb (fun c => negb (name_breaker c)) s'
      else
        let n := nat_of_ascii c in
        ((n =? 58) || (n =? 95) || (128 <=? n))%nat
        && string_forallb name_char s'
  end.

(** *** Reading and writing nodes *)

Definition node (i : nat) : M Heap Node :=
  fun h => match h !! i with Some n => Val n h | None => Unmodelled end.

Definition store (i : nat) (n : Node) : M Heap unit :=
  modify (fun h => <[i := n]> h).

Definition createElement (tag : string) : M Heap nat :=
  fun h =>
    if valid_element_name tag then
      Val (List.length h) (h ++ [mkNode (Element HTML (lower tag) []) None [] None])
    else Throw InvalidCharacterError h.

(** [setAttribute] and [removeAttribute] lower-case the name on an HTML
    element. *)
Definition attr_key (ns : Namespace) (name : string) : string :=
  match ns with HTML => lower name | SVG => name end.

Definition setAttribute (i : nat) (name value : string) : M Heap unit :=
  let* n := node i in
  match kind n with
  | Element ns ln attrs =>
      if valid_attribute_name name then
        store i (with_kind (Element ns ln
                   (attr_set (attr_key ns name) value attrs)) n)
      else throw InvalidCharacterError
  | Text _ => throw TypeError
  end.

Definition getAttribute (i : nat) (name : string) : M Heap (option string) :=
  let* n := node i in
  match kind n with
  | Element ns ln attrs => ret (attr_get (attr_key ns name) attrs)
  | Text _ => throw TypeError
  end.

Definition removeAttribute (i : nat) (name : string) : M Heap unit :=
  let* n := node i in
  match kind n with
  | Element ns ln attrs =>
      store i (with_kind (Element ns ln
                 (attr_remove (attr_key ns name) attrs)) n)
  | Text _ => throw TypeError
  end.

(** *** classList *)

Definition class_tokens (attrs : list (string * string)) : list string :=
  parse_tokens (default "" (attr_get "class" attrs)).

(** The class names of a node. *)
Definition tokens_of (n : Node) : list string :=
  match kind n with
  | Element _ _ attrs => class_tokens attrs
  | Text _ => []
  end.

(** What [classList] takes for a token: not empty, no ASCII whitespace. *)
Definition token (s : string) : Prop :=
  s <> EmptyString /\ string_forallb (fun c => negb (is_ws c)) s = true.

Definition validate_token (t : string) : M Heap unit :=
  if String.eqb t "" then throw SyntaxError
  else if string_forallb (fun c => negb (is_ws c)) t then ret tt
  else throw InvalidCharacterError.

Definition classList_add (i : nat) (t : string) : M Heap unit :=
  let* n := node i in
  match kind n with
  | Element ns ln attrs =>
      validate_token t ;;;
      store i (with_kind (Element ns ln
                 (attr_set "class"
                    (serialize_tokens (ordered_append (class_tokens attrs) t))
                    attrs)) n)
  | Text _ => throw TypeError
  end.

Definition classList_remove (i : nat) (t : string) : M Heap unit :=
  let* n := node i in
  match kind n with
  | Element ns ln attrs =>
      validate_token t ;;;
      let ts := List.filter (fun x => negb (String.eqb x t))
                  (class_tokens attrs) in
      match attr_get "class" attrs, ts with
      | None, [] => ret tt
      | _, _ =>
          store i (with_kind (Element ns ln
                     (attr_set "class" (serialize_tokens ts) attrs)) n)
      end
  | Text _ => throw TypeError
  end.

Definition classList_contains (i : nat) (t : string) : M Heap bool :=
  let* n := node i in
  match kind n with
  | Element ns ln attrs =>
      ret (existsb (String.eqb t) (class_tokens attrs))
  | Text _ => throw TypeError
  end.

(** *** The [disabled] property *)

Definition form_controls : list string :=
  ["button"; "fieldset"; "input"; "link"; "optgroup"; "option"; "select";
   "textarea"].

Definition reflects_disabled (n : Node) : bool :=
  match kind n with
  | Element HTML ln _ => existsb (String.eqb ln) form_controls
  | _ => false
  end.

(** A [style] element ties [disabled] to its style sheet. *)
Definition sheet_owner (n : Node) : bool :=
  match kind n with
  | Element HTML ln _ => String.eqb ln "style"
  | _ => false
  end.

(** [elm.disabled = b] for a boolean [b]. *)
Definition set_disabled (i : nat) (b : bool) : M Heap unit :=
  let* n := node i in
  if sheet_owner n then unmodelled
  else if reflects_disabled n then
    match kind n with
    | Element ns ln attrs =>
        store i (with_kind (Element ns ln
                   (if b then attr_set "disabled" "" attrs
                    else attr_remove "disabled" attrs)) n)
    | Text _ => ret tt
    end
  else store i (with_expando (Some b) n).

(** Whether [elm.disabled] is truthy. *)
Definition disabled (n : Node) : bool :=
  if reflects_disabled n then
    match kind n with
    | Element _ _ attrs => bool_decide (is_Some (attr_get "disabled" attrs))
    | Text _ => false
    end
  else bool_decide (expando_disabled n = Some true).

(** *** The tree *)

Definition parentElement (i : nat) : M Heap Ref :=
  let* n := node i in ret (parent n).

Definition firstChild (i : nat) : M Heap Ref :=
  let* n := node i in ret (head (children n)).

Definition element_ids (h : Heap) (l : list nat) : list nat :=
  List.filter
    (fun j => match h !! j with Some c => is_element c | None => false end) l.

(** The members of [elm.children]; a text node has no such property. *)
Definition element_children (i : nat) : M Heap (list nat) :=
  let* n := node i in
  let* h := get_state in
  if is_element n then ret (element_ids h (children n))
  else throw TypeError.

Definition firstElementChild (i : nat) : M Heap Ref :=
  let* n := node i in
  let* h := get_state in
  ret (head (element_ids h (children n))).

Definition without (i : nat) (l : list nat) : list nat :=
  List.filter (fun j => negb (j =? i)%nat) l.

(** Take [i] out of its parent's children. *)
Definition unlink (i : nat) (h : Heap) : Heap :=
  match h !! i with
  | Some n =>
      match parent n with
      | Some p =>
          alter (with_parent None) i
            (alter (fun pn => with_children (without i (children pn)) pn) p h)
      | None => h
      end
  | None => h
  end.

Fixpoint place_before (r i : nat) (l : list nat) : list nat :=
  match l with
  | [] => [i]
  | x :: l' => if (x =? r)%nat then i :: x :: l' else x :: place_before r i l'
  end.

(** Put the parentless [i] among the children of [p]: before [ref], or
    last. *)
Definition link (p : nat) (ref : option nat) (i : nat) (h : Heap) : Heap :=
  alter (with_parent (Some p)) i
    (alter (fun pn =>
              with_children
                (match ref with
                 | Some r => place_before r i (children pn)
                 | None => children pn ++ [i]
                 end) pn) p h).

(** Whether [a] is [b] or an ancestor of [b]; [fuel] bounds the walk up. *)
Fixpoint inclusive_ancestor (fuel : nat) (h : Heap) (a b : nat) : bool :=
  (a =? b)%nat ||
  match fuel with
  | O => false
  | S f =>
      match h !! b with
      | Some n =>
          match parent n with
          | Some p => inclusive_ancestor f h a p
          | None => false
          end
      | None => false
      end
  end.

(** [p.insertBefore(c, ref)]; a null [ref] appends. *)
Definition insertBefore (p : nat) (c ref : Ref) : M Heap unit :=
  match c with
  | None => throw TypeError
  | Some c =>
      let* pn := node p in
      let* cn := node c in
      let* h := get_state in
      if negb (is_element pn) || inclusive_ancestor (List.length h) h c p
      then throw HierarchyRequestError
      else
        match ref with
        | None => modify (fun h => link p None c (unlink c h))
        | Some r =>
            let* rn := node r in
            if bool_decide (parent rn = Some p) then
              if (r =? c)%nat then ret tt
              else modify (fun h => link p (Some r) c (unlink c h))
            else throw NotFoundError
        end
  end.

Definition appendChild (p : nat) (c : Ref) : M Heap unit :=
  insertBefore p c None.

Definition removeChild (p : nat) (c : Ref) : M Heap unit :=
  match c with
  | None => throw TypeError
  | Some c =>
      let* cn := node c in
      if bool_decide (parent cn = Some p) then modify (unlink c)
      else throw NotFoundError
  end.

(** The descendants of [i] in tree order. *)
Fixpoint descendants (fuel : nat) (h : Heap) (i : nat) : list nat :=
  match fuel with
  | O => []
  | S f =>
      match h !! i with
      | Some n => flat_map (fun c => c :: descendants f h c) (children n)
      | None => []
      end
  end.



(** *** innerHTML *)

(** Allocate a parsed tree under [p]; the new node's index comes back. *)
Fixpoint alloc (p : nat) (t : Html.Tree) (h : Heap) : nat * Heap :=
  match t with
  | Html.Chars s => (List.length h, h ++ [mkNode (Text s) (Some p) [] None])
  | Html.Elem ns name attrs kids =>
      let i := List.length h in
      let '(ids, h') :=
        (fix go (ks : list Html.Tree) (h : Heap) : list nat * Heap :=
           match ks with
           | [] => ([], h)
           | k :: ks' =>
               let '(j, h1) := alloc i k h in
               let '(js, h2) := go ks' h1 in
               (j :: js, h2)
           end) kids (h ++ [mkNode (Element ns name attrs) (Some p) [] None]) in
      (i, alter (with_children ids) i h')
  end.

(** The kind of the node made for the root of a parsed tree. *)
Definition kind_of (t : Html.Tree) : NodeKind :=
  match t with
  | Html.Elem ns name attrs _ => Element ns name attrs
  | Html.Chars s => Text s
  end.

(** [ext] starts with the node made for the root of [t], a child of [p]. *)
Definition starts_with (p : nat) (t : Html.Tree) (ext : list Node) : Prop :=
  exists n rest, ext = n :: rest /\ kind n = kind_of t /\ parent n = Some p.

Fixpoint alloc_all (p : nat) (ts : list Html.Tree) (h : Heap)
    : list nat * Heap :=
  match ts with
  | [] => ([], h)
  | t :: ts' =>
      let '(j, h1) := alloc p t h in
      let '(js, h2) := alloc_all p ts' h1 in
      (j :: js, h2)
  end.

Definition orphan (l : list nat) (h : Heap) : Heap :=
  foldr (fun c h => alter (with_parent None) c h) h l.

(** [elm.innerHTML = html] on a [div]: the old children are let go and the
    parsed fragment takes their place. *)
Definition set_innerHTML (i : nat) (html : string) : M Heap unit :=
  let* n := node i in
  match kind n with
  | Element HTML ln _ =>
      if String.eqb ln "div" then
        match Html.parse_fragment html with
        | Some ts =>
            modify (fun h =>
              let '(ids, h') := alloc_all i ts (orphan (children n) h) in
              alter (with_children ids) i h')
        | None => unmodelled
        end
      else unmodelled
  | _ => unmodelled
  end.

(** The parent and the children of the node at [i], as the heap has
    them. *)
Definition parent_of (h : Heap) (i : nat) : option Ref :=
  parent <$> h !! i.

Definition children_of (h : Heap) (i : nat) : option (list nat) :=
  children <$> h !! i.

(** A reference is null or names a node of the heap. *)
Definition valid (h : Heap) (r : Ref) : Prop :=
  match r with
  | Some i => i < List.length h
  | None => True
  end.


(** No node is ever destroyed: a run leaves at least as many. *)
Definition grows {A} (m : M Heap A) : Prop :=
  forall h,
    match m h with
    | Val _ h' | Throw _ h' => List.length h <= List.length h'
    | Unmodelled => True
    end.

(** *** Nodes after an update *)

(** The entries of [l] that [remove] takes out of the children of [q]. *)
Definition taken (h : Heap) (l : list Ref) (q c : nat) : bool :=
  bool_decide (Some c ∈ l /\ parent_of h c = Some (Some q)).

(** A node with its [disabled] attribute removed. *)
Definition strip (n : Node) : Node :=
  match kind n with
  | Element ns ln attrs =>
      with_kind (Element ns ln (attr_remove "disabled" attrs)) n
  | Text _ => n
  end.

(** Both arrows stripped of [disabled], one after the other. *)
Definition swept (h : Heap) (p n : nat) : Heap :=
  match h !! p with
  | Some pn =>
      let h1 := <[p := strip pn]> h in
      match h1 !! n with
      | Some nn => <[n := strip nn]> h1
      | None => h1
      end
  | None => h
  end.

(** The node after [elm.disabled = b]. *)
Definition flagged (b : bool) (n : Node) : Node :=
  if reflects_disabled n then
    match kind n with
    | Element ns ln attrs =>
        with_kind (Element ns ln
                     (if b then attr_set "disabled" "" attrs
                      else attr_remove "disabled" attrs)) n
    | Text _ => n
    end
  else with_expando (Some b) n.

(** *** Selectors and inline style *)

Section Css.

(** The CSS engine of the platform: [selector_matches sel] is [None] for
    a selector that does not parse, and otherwise tells whether a node of
    the heap matches; [style_assign prop value old] is the [style]
    attribute after [elm.style[prop] = value] when it was [old]. *)
Variable selector_matches : string -> option (Heap -> nat -> bool).
Variable style_assign : string -> string -> option string -> option string.

Definition querySelector (i : nat) (sel : string) : M Heap Ref :=
  let* n := node i in
  if is_element n then
    match selector_matches sel with
    | Some m =>
        let* h := get_state in
        ret (head (List.filter (m h)
                     (element_ids h (descendants (List.length h) h i))))
    | None => throw SyntaxError
    end
  else throw TypeError.

Definition set_style (i : nat) (prop value : string) : M Heap unit :=
  let* n := node i in
  match kind n with
  | Element ns ln attrs =>
      store i (with_kind (Element ns ln
                 (match style_assign prop value (attr_get "style" attrs) with
                  | Some s => attr_set "style" s attrs
                  | None => attr_remove "style" attrs
                  end)) n)
  | Text _ => throw TypeError
  end.

End Css.

End Dom.


(** ** utils/dom.js: the DOM helper functions *)

Module DomUtils.
Import Dom.

(** Modelled from the spec: [each] of [./object], which is not among the
    sources; it applies the callback to every value/key pair of the object,
    in key order. *)
Definition each {S V} (obj : list (string * V)) (f : V -> string -> M S unit)
    : M S unit :=
  forEach obj (fun kv => f (snd kv) (fst kv)).

(** Modelled from the spec: [values] of [./object], which is not among the
    sources; the array of an object's values. *)
Definition values {A} (obj : list A) : list A := obj.

(** Modelled from the spec: [toArray] of [./utils], which is not among the
    sources; a single item becomes a one-item array, an array is itself. *)
Definition toArray {A} (value : OneOrMany A) : list A :=
  match value with
  | One a => [a]
  | Many l => l
  end.

(** [array.filter(f)] for a callback that reads the heap. *)
Fixpoint filterM {S A} (f : A -> M S bool) (l : list A) : M S (list A) :=
  match l with
  | [] => ret []
  | x :: l' =>
      let* b := f x in
      let* r := filterM f l' in
      ret (if b then x :: r else r)
  end.

Definition hasClass (elm : Ref) (className : string) : M Heap bool :=
  match elm with
  | Some e => classList_contains e className
  | None => ret false
  end.

Definition setAttribute (elm : Ref) (name : string) (value : Value)
    : M Heap unit :=
  match elm with
  | Some e => Dom.setAttribute e name (toString value)
  | None => ret tt
  end.

Definition getAttribute (elm : Ref) (name : string)
    : M Heap (option string) :=
  match elm with
  | Some e => Dom.getAttribute e name
  | None => ret None
  end.

Definition removeAttribute (elm : Ref) (names : OneOrMany string)
    : M Heap unit :=
  match elm with
  | Some e => forEach (toArray names) (fun name => Dom.removeAttribute e name)
  | None => ret tt
  end.

Section Css.

Variable selector_matches : string -> option (Heap -> nat -> bool).
Variable style_assign : string -> string -> option string -> option string.

(** A missing [selector] is [None]. *)
Definition find (elm : Ref) (selector : option string) : M Heap Ref :=
  match elm, selector with
  | Some e, Some sel =>
      if String.eqb sel "" then ret None
      else querySelector selector_matches e (first_part sel)
  | _, _ => ret None
  end.

Definition applyStyle (elm : Ref) (styles : list (string * Value))
    : M Heap unit :=
  match elm with
  | Some e =>
      each styles (fun value prop =>
        set_style style_assign e prop (toString (or_else value (VStr ""))))
  | None => ret tt
  end.

End Css.

Definition child (parent : Ref) (className : string) : M Heap Ref :=
  match parent with
  | Some p =>
      let* cs := element_children p in
      let* found :=
        filterM (fun c => hasClass (Some c) (first_part className))
          (values cs) in
      ret (head found)
  | None => ret None
  end.

Definition create (tag : string) (attrs : list (string * Value))
    : M Heap nat :=
  let* elm := createElement tag in
  each attrs (fun value key => setAttribute (Some elm) key value) ;;;
  ret elm.

Definition domify (html : string) : M Heap Ref :=
  let* div := create "div" [] in
  set_innerHTML div html ;;;
  firstChild div.

Definition remove (elms : OneOrMany Ref) : M Heap unit :=
  forEach (toArray elms) (fun elm =>
    match elm with
    | Some e =>
        let* p := parentElement e in
        match p with
        | Some p => removeChild p (Some e)
        | None => throw TypeError
        end
    | None => ret tt
    end).

Definition append (parent child : Ref) : M Heap unit :=
  match parent with
  | Some p => appendChild p child
  | None => ret tt
  end.

Definition before (elm ref : Ref) : M Heap unit :=
  match elm, ref with
  | Some e, Some r =>
      let* p := parentElement r in
      match p with
      | Some p => insertBefore p (Some e) (Some r)
      | None => ret tt
      end
  | _, _ => ret tt
  end.

Definition addOrRemoveClasses (elm : Ref) (classes : OneOrMany string)
    (remove : bool) : M Heap unit :=
  match elm with
  | Some e =>
      forEach (toArray classes) (fun name =>
        if String.eqb name "" then ret tt
        else if remove then classList_remove e name
        else classList_add e name)
  | None => ret tt
  end.

Definition addClass (elm : Ref) (classes : OneOrMany string) : M Heap unit :=
  addOrRemoveClasses elm classes false.

Definition removeClass (elm : Ref) (classes : OneOrMany string)
    : M Heap unit :=
  addOrRemoveClasses elm classes true.

End DomUtils.

(** ** components/arrows/index.js: the Arrows component *)

Module Arrows.
Import Dom DomUtils.

(** *** The host *)

(** The options this component reads. *)
Record Options := mkOptions {
  arrows : Value;
  perMove : Value;
  perPage : Z;
  arrowPath : Value
}.

(** The class names this component reads off [Splide.classes]. *)
Record Classes := mkClasses {
  cls_arrows : string;
  cls_arrow : string;
  cls_prev : string;
  cls_next : string
}.

(** The constants of [./path], which is not among the sources, taken as
    parameters. *)
Record Path := mkPath {
  XML_NAME_SPACE : string;
  PATH : string;
  SIZE : Z
}.

(** The two closures this component registers as listeners. *)
Inductive Handler :=
| HClick (prev : bool)
| HUpdateDisabled.

Record Listener := mkListener {
  event : string;
  handler : Handler;
  target : Ref
}.

Inductive Arg :=
| AElm (r : Ref)
| ANum (z : Z).

(** Modelled from the spec: the host object [Splide] and the sibling
    components [Elements] and [Controller], which are not among the
    sources.  [listeners] holds what this component registered with
    [Splide.on], [emitted] the notifications sent with [Splide.emit] and
    [went] the navigation requests made with [Splide.go], oldest first. *)
Record Host := mkHost {
  options : Options;
  classes : Classes;
  root : nat;
  length : Z;
  elements_prev : Ref;
  elements_next : Ref;
  slider : Ref;
  prevIndex : Z;
  nextIndex : Z;
  path : Path;
  listeners : list Listener;
  emitted : list (string * list Arg);
  went : list string
}.

(** The variables the component closes over, and its own properties. *)
Record Closure := mkClosure {
  name : string;
  prev : Ref;
  next : Ref;
  own_classes : Classes;
  own_root : nat;
  created : bool;
  required : Value;
  arrows_prop : option (Ref * Ref)
}.

Record World := mkWorld {
  heap : Heap;
  host : Host;
  self : Closure
}.

Definition with_heap (h : Heap) (w : World) : World :=
  mkWorld h (host w) (self w).
Definition with_host (x : Host) (w : World) : World :=
  mkWorld (heap w) x (self w).
Definition with_self (c : Closure) (w : World) : World :=
  mkWorld (heap w) (host w) c.

(** A DOM helper run by the component. *)
Definition dom {A} (m : M Heap A) : M World A := zoom heap with_heap m.

Definition set_prev (r : Ref) : M World unit :=
  modify (fun w =>
    let c := self w in
    with_self (mkClosure (name c) r (next c) (own_classes c) (own_root c)
                 (created c) (required c) (arrows_prop c)) w).

Definition set_next (r : Ref) : M World unit :=
  modify (fun w =>
    let c := self w in
    with_self (mkClosure (name c) (prev c) r (own_classes c) (own_root c)
                 (created c) (required c) (arrows_prop c)) w).

Definition set_created (b : bool) : M World unit :=
  modify (fun w =>
    let c := self w in
    with_self (mkClosure (name c) (prev c) (next c) (own_classes c)
                 (own_root c) b (required c) (arrows_prop c)) w).

Definition set_arrows_prop (a : Ref * Ref) : M World unit :=
  modify (fun w =>
    let c := self w in
    with_self (mkClosure (name c) (prev c) (next c) (own_classes c)
                 (own_root c) (created c) (required c) (Some a)) w).

(** Modelled from the spec: [Splide.on(events, handler, elm)] records the
    handler for each of the space-separated [events]. *)
Definition on (events : string) (f : Handler) (elm : Ref) : M World unit :=
  modify (fun w =>
    let x := host w in
    with_host (mkHost (options x) (classes x) (root x) (length x)
                 (elements_prev x) (elements_next x) (slider x)
                 (prevIndex x) (nextIndex x) (path x)
                 (listeners x
                  ++ map (fun ev => mkListener ev f elm) (split " " events))
                 (emitted x) (went x)) w).

(** Modelled from the spec: [Splide.emit(event, ...args)] sends a
    notification on the host's event bus. *)
Definition emit (ev : string) (args : list Arg) : M World unit :=
  modify (fun w =>
    let x := host w in
    with_host (mkHost (options x) (classes x) (root x) (length x)
                 (elements_prev x) (elements_next x) (slider x)
                 (prevIndex x) (nextIndex x) (path x) (listeners x)
                 (emitted x ++ [(ev, args)]) (went x)) w).

(** Modelled from the spec: [Splide.go(control)] asks the controller to
    navigate. *)
Definition go (control : string) : M World unit :=
  modify (fun w =>
    let x := host w in
    with_host (mkHost (options x) (classes x) (root x) (length x)
                 (elements_prev x) (elements_next x) (slider x)
                 (prevIndex x) (nextIndex x) (path x) (listeners x)
                 (emitted x) (went x ++ [control])) w).

(** *** The component *)

(** The component as its factory returns it. *)
Definition new (name : string) (x : Host) : Closure :=
  mkClosure name None None (classes x) (root x) false (arrows (options x))
    None.

Definition createArrow (prev : bool) : M World Ref :=
  let* w := get_state in
  let classes := own_classes (self w) in
  let q := String quot EmptyString in
  let tab := String (ascii_of_nat 9) EmptyString in
  let size := toString (VNum (SIZE (path (host w)))) in
  let arrow :=
    ("<button class=" ++ q ++ cls_arrow classes ++ " "
      ++ (if prev then cls_prev classes else cls_next classes) ++ q ++ ">"
    ++ "<svg xmlns=" ++ q ++ XML_NAME_SPACE (path (host w)) ++ q
      ++ tab ++ "viewBox=" ++ q ++ "0 0 " ++ size ++ " " ++ size ++ q
      ++ tab ++ "width=" ++ q ++ size ++ q
      ++ tab ++ "height=" ++ q ++ size ++ q ++ ">"
    ++ "<path d=" ++ q
      ++ toString (or_else (arrowPath (options (host w)))
                     (VStr (PATH (path (host w)))))
      ++ q ++ " />")%string in
  dom (domify arrow).

Definition appendArrows : M World unit :=
  let* w := get_state in
  let* wrapper :=
    dom (create "div" [("class", VStr (cls_arrows (own_classes (self w))))]) in
  dom (append (Some wrapper) (prev (self w))) ;;;
  dom (append (Some wrapper) (next (self w))) ;;;
  let* w := get_state in
  let slider := slider (host w) in
  let parent :=
    match arrows (options (host w)), slider with
    | VStr a, Some sl => if String.eqb a "slider" then sl else own_root (self w)
    | _, _ => own_root (self w)
    end in
  let* first := dom (firstElementChild parent) in
  dom (before (Some wrapper) first).

Definition onClick (prev : bool) : M World unit :=
  let* w := get_state in
  let perMove := perMove (options (host w)) in
  go (if truthy perMove
      then (if prev then "-" else "+") ++ toString perMove
      else if prev then "<" else ">").

Definition updateDisabled : M World unit :=
  let* w := get_state in
  let prevIndex := prevIndex (host w) in
  let nextIndex := nextIndex (host w) in
  let isEnough := (perPage (options (host w)) <? length (host w))%Z in
  match prev (self w) with
  | Some p => dom (set_disabled p ((prevIndex <? 0)%Z || negb isEnough))
  | None => throw TypeError
  end ;;;
  match next (self w) with
  | Some n => dom (set_disabled n ((nextIndex <? 0)%Z || negb isEnough))
  | None => throw TypeError
  end ;;;
  emit (name (self w) ++ ":updated")
    [AElm (prev (self w)); AElm (next (self w));
     ANum prevIndex; ANum nextIndex].

Definition bind : M World unit :=
  let* w := get_state in
  on "click" (HClick true) (prev (self w)) ;;;
  on "click" (HClick false) (next (self w)) ;;;
  on "mounted move updated" HUpdateDisabled None.

Definition mount : M World unit :=
  let* w := get_state in
  set_prev (elements_prev (host w)) ;;;
  set_next (elements_next (host w)) ;;;
  let* w := get_state in
  (if (negb (bool_decide (is_Some (prev (self w))))
       || negb (bool_decide (is_Some (next (self w)))))
      && truthy (arrows (options (host w)))
   then
     let* p := createArrow true in
     set_prev p ;;;
     let* n := createArrow false in
     set_next n ;;;
     set_created true ;;;
     appendArrows
   else ret tt) ;;;
  let* w := get_state in
  (if bool_decide (is_Some (prev (self w)))
      && bool_decide (is_Some (next (self w)))
   then bind else ret tt) ;;;
  let* w := get_state in
  set_arrows_prop (prev (self w), next (self w)).

Definition mounted : M World unit :=
  let* w := get_state in
  emit (name (self w) ++ ":mounted")
    [AElm (prev (self w)); AElm (next (self w))].

Definition destroy : M World unit :=
  let* w := get_state in
  forEach [prev (self w); next (self w)]
    (fun elm => dom (removeAttribute elm (One "disabled"))) ;;;
  if created (self w) then
    match prev (self w) with
    | Some p =>
        let* wrapper := dom (parentElement p) in
        dom (remove (One wrapper))
    | None => throw TypeError
    end
  else ret tt.

(** *** The life of a component *)

Definition run_handler (f : Handler) : M World unit :=
  match f with
  | HClick prev => onClick prev
  | HUpdateDisabled => updateDisabled
  end.

(** The state a run leaves behind, whether it returned or threw. *)
Definition after {A} (r : Res World A) : option World :=
  match r with
  | Val _ w => Some w
  | Throw _ w => Some w
  | Unmodelled => None
  end.

(** A component just made by its factory, before [mount]. *)
Definition Fresh (w : World) : Prop :=
  (exists name, self w = new name (host w))
  /\ listeners (host w) = []
  /\ valid (heap w) (elements_prev (host w))
  /\ valid (heap w) (elements_next (host w)).

(** What the rest of the page may do between two calls into the component:
    anything that leaves the component's own variables and its listeners
    alone and destroys no node. *)
Definition env_step (w w' : World) : Prop :=
  self w' = self w
  /\ listeners (host w') = listeners (host w)
  /\ List.length (heap w) <= List.length (heap w').

(** Modelled from the spec: the host mounts a component once, then calls
    [mounted] and [destroy] and invokes the listeners the component
    registered, in any order. *)
Inductive Reachable : World -> Prop :=
| R_mount w0 w : Fresh w0 -> after (mount w0) = Some w -> Reachable w
| R_mounted w w' : Reachable w -> after (mounted w) = Some w' -> Reachable w'
| R_destroy w w' : Reachable w -> after (destroy w) = Some w' -> Reachable w'
| R_invoke w l w' :
    Reachable w -> l ∈ listeners (host w) ->
    after (run_handler (handler l) w) = Some w' -> Reachable w'
| R_env w w' : Reachable w -> env_step w w' -> Reachable w'.













(** *** What runs ensure *)

(** What a run ensures about its result and the state it leaves: [Q] when
    it returns, [E] when it throws. *)
Definition ensures {A} (m : M World A) (w : World)
    (Q : A -> World -> Prop) (E : World -> Prop) : Prop :=
  match m w with
  | Val a w' => Q a w'
  | Throw _ w' => E w'
  | Unmodelled => True
  end.

(** A run that is a step of the environment as far as the component's
    variables and listeners go. *)
Definition quiet {A} (m : M World A) : Prop :=
  forall w, ensures m w (fun _ w' => env_step w w') (fun w' => env_step w w').

(** Listeners are registered only with both arrows at hand. *)
Definition Inv (w : World) : Prop :=
  listeners (host w) = []
  \/ exists p n,
       prev (self w) = Some p /\ next (self w) = Some n
       /\ p < List.length (heap w) /\ n < List.length (heap w).

(** What [mount] has established before it registers listeners. *)
Definition Ready (w : World) : Prop :=
  listeners (host w) = []
  /\ valid (heap w) (prev (self w))
  /\ valid (heap w) (next (self w)).

(** *** Runs of [mount] *)

(** The listeners [bind] registers. *)
Definition bound (p n : Ref) : list Listener :=
  [mkListener "click" (HClick true) p;
   mkListener "click" (HClick false) n;
   mkListener "mounted" HUpdateDisabled None;
   mkListener "move" HUpdateDisabled None;
   mkListener "updated" HUpdateDisabled None].



(** A run that leaves the host and the component's variables alone,
    whether it returns or throws. *)
Definition dom_only {A} (m : M World A) : Prop :=
  forall w,
    match m w with
    | Val _ w' | Throw _ w' => host w' = host w /\ self w' = self w
    | Unmodelled => True
    end.

End Arrows.

(** ** Sample pages *)

Module Sample.
Import Dom DomUtils Arrows.

Definition div (p : option nat) (c : list nat) : Node :=
  mkNode (Element HTML "div" []) p c None.

Definition anchor (class : string) (p : option nat) : Node :=
  mkNode (Element HTML "a" [("class", class)]) p [] None.

Definition the_classes : Classes :=
  mkClasses "splide__arrows" "splide__arrow" "splide__arrow--prev"
    "splide__arrow--next".

Definition the_path : Path :=
  mkPath "http://www.w3.org/2000/svg"
    "m15.5 0.932-4.3 4.38 14.5 14.6-14.5 14.5 4.3 4.4 14.6-14.6 4.4-4.3-4.4-4.4-14.6-14.6z"
    40.

(** Three slides, one per page, no slide before the first one. *)
Definition the_host (arrows : Value) (prev next slider : Ref) : Host :=
  mkHost (mkOptions arrows VUndefined 1 VUndefined) the_classes 0 3
    prev next slider (-1) 2 the_path [] [] [].

Definition page (h : Heap) (x : Host) : World :=
  mkWorld h x (new "arrows" x).

(** A root holding a track, and no arrows in the markup. *)
Definition bare : World :=
  page [div None [1]; div (Some 0) []] (the_host (VBool true) None None None).

(** A root with no element in it. *)
Definition hollow : World :=
  page [div None []] (the_host (VBool true) None None None).

(** A root holding an empty slider region and, after it, the track; the
    arrows are to go into the slider. *)
Definition hollow_slider : World :=
  page [div None [1; 2]; div (Some 0) []; div (Some 0) []]
    (the_host (VStr "slider") None None (Some 1)).

(** A root whose markup brings both arrows, in a wrapper of its own. *)
Definition marked_up : World :=
  page [div None [1; 4]; div (Some 0) [2; 3];
        anchor "splide__arrow--prev" (Some 1);
        anchor "splide__arrow--next" (Some 1); div (Some 0) []]
    (the_host (VBool true) (Some 2) (Some 3) None).

(** A root that brings the previous arrow only, with the [arrows] option
    off. *)
Definition switched_off : World :=
  page [div None [1]; anchor "splide__arrow--prev" (Some 0)]
    (the_host (VBool false) (Some 1) None None).

(** A root that brings both arrows as buttons, each with an [id]. *)
Definition knob (id class : string) (p : option nat) : Node :=
  mkNode (Element HTML "button" [("id", id); ("class", class)]) p [] None.

Definition buttoned : World :=
  page [div None [1; 2; 3]; knob "p" "splide__arrow--prev" (Some 0);
        knob "n" "splide__arrow--next" (Some 0); div (Some 0) []]
    (the_host (VBool true) (Some 1) (Some 2) None).

(** A page whose arrows move three slides at a time. *)
Definition three_per_move : World :=
  page [div None []]
    (mkHost (mkOptions (VBool false) (VNum 3) 1 VUndefined) the_classes 0 9
       None None None (-1) 3 the_path [] [] []).

(** The world a run leaves, or [w] itself when the run is not modelled. *)
Definition and_after {A} (m : M World A) (w : World) : World :=
  match after (m w) with
  | Some w' => w'
  | None => w
  end.

Definition bare_mounted : World := Eval vm_compute in and_after mount bare.
Definition marked_up_mounted : World :=
  Eval vm_compute in and_after mount marked_up.

(** The page with buttons after [mount] and one [updateDisabled]: the
    previous arrow is disabled. *)
Definition buttoned_updated : World :=
  Eval vm_compute in and_after updateDisabled (and_after mount buttoned).

End Sample.

(** ** Strings and token lists *)

Module StringFacts.

Lemma append_cons c (s t : string) :
  (String c s ++ t)%string = String c (s ++ t)%string.
Proof. reflexivity. Qed.

Lemma append_nil_r (s : string) : (s ++ "")%string = s.
Proof. induction s as [|c s IH]; [done | by rewrite append_cons, IH]. Qed.

Lemma append_assoc (a b c : string) :
  ((a ++ b) ++ c = a ++ (b ++ c))%string.
Proof. induction a as [|x a IH]; [done | by rewrite !append_cons, IH]. Qed.

Lemma eqb_empty_false (s : string) : s <> "" -> String.eqb s "" = false.
Proof. intros. by apply String.eqb_neq. Qed.

Lemma forallb_append p (a b : string) :
  string_forallb p (a ++ b)%string = string_forallb p a && string_forallb p b.
Proof.
  induction a as [|x a IH]; [done|].
  rewrite append_cons. simpl. rewrite IH. by rewrite andb_assoc.
Qed.

Lemma existsb_eqb t l : existsb (String.eqb t) l = bool_decide (t ∈ l).
Proof.
  induction l as [|x l IH]; simpl; [done|].
  rewrite IH. destruct (String.eqb_spec t x) as [->|Hne]; simpl.
  - symmetry. apply bool_decide_eq_true. by left.
  - apply bool_decide_ext. rewrite elem_of_cons. tauto.
Qed.

Lemma elem_of_filter_neq (t x : string) (l : list string) :
  x ∈ List.filter (fun y => negb (String.eqb y t)) l <-> x ∈ l /\ x <> t.
Proof.
  rewrite !list_elem_of_In, filter_In, negb_true_iff, String.eqb_neq. done.
Qed.

Lemma filter_NoDup_bool {A} (p : A -> bool) (l : list A) :
  NoDup l -> NoDup (List.filter p l).
Proof.
  induction 1 as [|x l Hx Hl IH]; simpl; [constructor|].
  destruct (p x); [|done]. constructor; [|done].
  intros Hin. apply Hx. apply list_elem_of_In in Hin.
  apply filter_In in Hin as [Hin _]. by apply list_elem_of_In.
Qed.

(** Every piece that [ws_split] returns is a token. *)
Lemma ws_split_tokens s : forall acc,
  string_forallb (fun c => negb (is_ws c)) acc = true ->
  Forall Dom.token (ws_split acc s).
Proof.
  induction s as [|c s IH]; intros acc Hacc; simpl.
  - destruct (String.eqb_spec acc "") as [->|Hne]; [constructor|].
    repeat constructor; done.
  - destruct (is_ws c) eqn:Hc.
    + destruct (String.eqb_spec acc "") as [->|Hne]; [by apply IH|].
      constructor; [done | by apply IH].
    + apply IH. rewrite forallb_append, Hacc. simpl. by rewrite Hc.
Qed.

(** Reading a run of characters that are not whitespace only grows the
    piece being read. *)
Lemma ws_split_read t : forall acc rest,
  string_forallb (fun c => negb (is_ws c)) t = true ->
  ws_split acc (t ++ rest) = ws_split (acc ++ t) rest.
Proof.
  induction t as [|c t IH]; intros acc rest Ht.
  - by rewrite append_nil_r.
  - rewrite append_cons. simpl. simpl in Ht.
    apply andb_true_iff in Ht as [Hc Ht].
    apply negb_true_iff in Hc. rewrite Hc.
    rewrite IH by done. by rewrite append_assoc, append_cons.
Qed.

Lemma ws_split_serialize ts :
  Forall Dom.token ts -> ws_split "" (serialize_tokens ts) = ts.
Proof.
  unfold serialize_tokens.
  induction ts as [|t ts IH]; intros Hts; [done|].
  apply Forall_cons in Hts as [[Hne Ht] Hts].
  simpl. destruct ts as [|t' ts].
  - rewrite <- (append_nil_r t) at 1. rewrite ws_split_read by done.
    simpl. by rewrite eqb_empty_false.
  - rewrite ws_split_read by done. simpl.
    rewrite eqb_empty_false by done. f_equal. by apply IH.
Qed.

Lemma ordered_append_elem l x y :
  y ∈ ordered_append l x <-> y ∈ l \/ y = x.
Proof.
  unfold ordered_append. case_decide.
  - split; [by left | intros [?| ->]; done].
  - rewrite elem_of_app, list_elem_of_singleton. done.
Qed.

Lemma ordered_append_NoDup l x : NoDup l -> NoDup (ordered_append l x).
Proof.
  intros Hl. unfold ordered_append. case_decide; [done|].
  apply NoDup_app. split_and!; [done| |apply NoDup_singleton].
  intros y Hy Hx. apply list_elem_of_singleton in Hx as ->. done.
Qed.

Lemma ordered_set_from acc l :
  NoDup acc -> NoDup (foldl ordered_append acc l)
  /\ forall y, y ∈ foldl ordered_append acc l <-> y ∈ acc \/ y ∈ l.
Proof.
  revert acc. induction l as [|x l IH]; intros acc Hacc; simpl.
  - split; [done|]. intros y. rewrite elem_of_nil. tauto.
  - destruct (IH (ordered_append acc x) (ordered_append_NoDup _ _ Hacc))
      as [Hnd Hel].
    split; [done|]. intros y.
    rewrite Hel, ordered_append_elem, elem_of_cons. tauto.
Qed.

Lemma ordered_set_id_from acc l :
  NoDup (acc ++ l) -> foldl ordered_append acc l = acc ++ l.
Proof.
  revert acc. induction l as [|x l IH]; intros acc Hnd; simpl.
  - by rewrite app_nil_r.
  - assert (Hx : x ∉ acc).
    { apply NoDup_app in Hnd as (_ & Hd & _).
      intros Hx. apply (Hd x Hx). by left. }
    unfold ordered_append at 2. rewrite decide_False by done.
    rewrite IH; rewrite <- app_assoc; done.
Qed.

Lemma parse_tokens_NoDup s : NoDup (parse_tokens s).
Proof. apply ordered_set_from. constructor. Qed.

Lemma parse_tokens_tokens s : Forall Dom.token (parse_tokens s).
Proof.
  apply Forall_forall. intros y Hy.
  apply (ordered_set_from [] _ (NoDup_nil_2)) in Hy as [Hy|Hy];
    [by apply elem_of_nil in Hy|].
  pose proof (ws_split_tokens s "" eq_refl) as Hall.
  rewrite Forall_forall in Hall. by apply Hall.
Qed.

(** Serializing a token set and parsing it back gives the same set. *)
Lemma parse_serialize ts :
  Forall Dom.token ts -> NoDup ts -> parse_tokens (serialize_tokens ts) = ts.
Proof.
  intros Ht Hnd. unfold parse_tokens. rewrite ws_split_serialize by done.
  unfold ordered_set. by rewrite ordered_set_id_from.
Qed.

End StringFacts.

(** ** Properties of the fragment parser *)

Module HtmlFacts.
Import Html StringFacts.

Lemma Tree_forall_ind (P : Tree -> Prop) :
  (forall s, P (Chars s)) ->
  (forall ns name attrs kids, Forall P kids -> P (Elem ns name attrs kids)) ->
  forall t, P t.
Proof.
  intros Hc He. fix IH 1. intros [ns name attrs kids|s]; [apply He|apply Hc].
  induction kids as [|k kids IHk]; constructor; [apply IH | exact IHk].
Qed.







Lemma append_nil_l (s : string) : ("" ++ s)%string = s.
Proof. reflexivity. Qed.














End HtmlFacts.

(** ** Properties of the DOM *)

Module DomFacts.
Import Dom StringFacts.

Lemma attr_set_fresh k v l :
  k ∉ map fst l -> attr_set k v l = l ++ [(k, v)].
Proof.
  induction l as [|[k' v'] l IH]; simpl; intros Hk; [done|].
  apply not_elem_of_cons in Hk as [Hne Hk].
  destruct (String.eqb_spec k' k) as [->|_]; [done|].
  by rewrite IH.
Qed.

Lemma attr_get_set k v l : attr_get k (attr_set k v l) = Some v.
Proof.
  induction l as [|[k' v'] l IH]; simpl.
  - by rewrite String.eqb_refl.
  - destruct (String.eqb_spec k' k) as [->|Hne]; simpl.
    + by rewrite String.eqb_refl.
    + by rewrite (proj2 (String.eqb_neq _ _) Hne).
Qed.

Lemma attr_get_remove k l : attr_get k (attr_remove k l) = None.
Proof.
  unfold attr_remove.
  induction l as [|[k' v'] l IH]; simpl; [done|].
  destruct (String.eqb_spec k' k) as [->|Hne]; simpl; [done|].
  by rewrite (proj2 (String.eqb_neq _ _) Hne).
Qed.

Lemma attr_get_map (f : string -> string) (g : Value -> string)
    (l : list (string * Value)) k v :
  NoDup (map (fun kv => f (fst kv)) l) ->
  (k, v) ∈ l ->
  attr_get (f k) (map (fun kv => (f (fst kv), g (snd kv))) l) = Some (g v).
Proof.
  induction l as [|[k' v'] l IH]; simpl; intros Hnd Hin.
  - by apply elem_of_nil in Hin.
  - apply NoDup_cons in Hnd as [Hk' Hnd].
    apply elem_of_cons in Hin as [Heq|Hin].
    + injection Heq as -> ->. by rewrite String.eqb_refl.
    + destruct (String.eqb_spec (f k') (f k)) as [Heq|_].
      * exfalso. apply Hk'. rewrite Heq.
        apply (list_elem_of_fmap_2 (fun kv => f (fst kv)) l (k, v)) in Hin.
        exact Hin.
      * by apply IH.
Qed.

Lemma lookup_insert_here (h : Heap) i n n' :
  h !! i = Some n -> <[i := n']> h !! i = Some n'.
Proof.
  intros Hi. apply list_lookup_insert_eq. by eapply lookup_lt_Some.
Qed.

Lemma validate_token_ok t h : token t -> validate_token t h = Val tt h.
Proof.
  intros [Hne Hws]. unfold validate_token.
  by rewrite eqb_empty_false, Hws.
Qed.

Lemma class_tokens_set ts attrs :
  Forall token ts -> NoDup ts ->
  class_tokens (attr_set "class" (serialize_tokens ts) attrs) = ts.
Proof.
  intros. unfold class_tokens. rewrite attr_get_set. simpl.
  by apply parse_serialize.
Qed.

Lemma tokens_of_NoDup n : NoDup (tokens_of n).
Proof.
  unfold tokens_of, class_tokens.
  destruct (kind n); [apply parse_tokens_NoDup | constructor].
Qed.

Lemma tokens_of_tokens n : Forall token (tokens_of n).
Proof.
  unfold tokens_of, class_tokens.
  destruct (kind n); [apply parse_tokens_tokens | constructor].
Qed.

(** [classList.add] appends the token to the element's token set. *)
Lemma classList_add_spec h e n t :
  h !! e = Some n -> is_element n = true -> token t ->
  exists n',
    classList_add e t h = Val tt (<[e := n']> h)
    /\ is_element n' = true
    /\ tokens_of n' = ordered_append (tokens_of n) t.
Proof.
  intros He Hel Ht. unfold classList_add, and_then, node. rewrite He.
  pose proof (tokens_of_NoDup n) as Hnd.
  pose proof (tokens_of_tokens n) as Htk.
  unfold is_element, tokens_of in *.
  destruct (kind n) as [ns ln attrs|] eqn:Hk; [|done].
  cbn. rewrite validate_token_ok by done.
  eexists. split; [reflexivity|]. split; [done|].
  cbn. apply class_tokens_set.
  - apply Forall_forall. intros y Hy.
    apply ordered_append_elem in Hy as [Hy| ->]; [|done].
    rewrite Forall_forall in Htk. by apply Htk.
  - by apply ordered_append_NoDup.
Qed.

(** [classList.remove] takes the token out of the element's token set. *)
Lemma classList_remove_spec h e n t :
  h !! e = Some n -> is_element n = true -> token t ->
  exists h' n',
    classList_remove e t h = Val tt h'
    /\ h' !! e = Some n'
    /\ is_element n' = true
    /\ tokens_of n'
       = List.filter (fun x => negb (String.eqb x t)) (tokens_of n).
Proof.
  intros He Hel Ht. unfold classList_remove, and_then, node. rewrite He.
  pose proof (tokens_of_NoDup n) as Hnd.
  pose proof (tokens_of_tokens n) as Htk.
  unfold is_element, tokens_of in *.
  destruct (kind n) as [ns ln attrs|] eqn:Hk; [|done].
  cbn. rewrite validate_token_ok by done.
  remember (List.filter (fun x => negb (String.eqb x t)) (class_tokens attrs))
    as ts eqn:Ets.
  assert (Hts : Forall token ts /\ NoDup ts).
  { subst ts. split; [|by apply filter_NoDup_bool].
    apply Forall_forall. intros y Hy. apply list_elem_of_In in Hy.
    apply filter_In in Hy as [Hy _]. rewrite Forall_forall in Htk.
    apply Htk. by apply list_elem_of_In. }
  destruct Hts as [Htok Hnd'].
  assert (Hstore :
    exists n', store e (with_kind (Element ns ln
                 (attr_set "class" (serialize_tokens ts) attrs)) n) h
               = Val tt (<[e := n']> h)
      /\ is_element n' = true /\ tokens_of n' = ts).
  { eexists. split; [reflexivity|]. split; [done|].
    unfold tokens_of. cbn. by apply class_tokens_set. }
  destruct Hstore as (n' & Hst & Hel' & Htok').
  pose proof (lookup_insert_here h e n n' He) as Hlook.
  destruct (attr_get "class" attrs) eqn:Hget.
  - exists (<[e := n']> h), n'. by rewrite Hst.
  - destruct ts as [|x ts].
    + exists h, n. split; [done|]. split; [done|].
      unfold is_element, tokens_of. rewrite Hk. split; [done|].
      unfold class_tokens. rewrite Hget. reflexivity.
    + exists (<[e := n']> h), n'. by rewrite Hst.
Qed.

Lemma kind_with_kind k n : kind (with_kind k n) = k.
Proof. reflexivity. Qed.

Lemma kind_with_expando d n : kind (with_expando d n) = kind n.
Proof. reflexivity. Qed.

(** Writing [disabled] makes it read back as written. *)
Lemma set_disabled_spec h i n b :
  h !! i = Some n -> sheet_owner n = false ->
  exists n',
    set_disabled i b h = Val tt (<[i := n']> h)
    /\ disabled n' = b
    /\ sheet_owner n' = false.
Proof.
  intros Hi Hs. unfold set_disabled, and_then, node. rewrite Hi, Hs.
  destruct (reflects_disabled n) eqn:Hr.
  - unfold reflects_disabled, sheet_owner, disabled in *.
    destruct (kind n) as [ns ln attrs|] eqn:Hk; [|done].
    eexists. split; [reflexivity|].
    unfold reflects_disabled. rewrite !kind_with_kind.
    destruct ns; [|done]. rewrite Hr. split; [|done].
    destruct b.
    + rewrite attr_get_set. by apply bool_decide_eq_true.
    + rewrite attr_get_remove. apply bool_decide_eq_false. by intros [? ?].
  - eexists. split; [reflexivity|].
    unfold disabled, reflects_disabled, sheet_owner in *.
    rewrite !kind_with_expando, Hr. split; [|done].
    destruct b; [by apply bool_decide_eq_true | by apply bool_decide_eq_false].
Qed.

Lemma alter_middle {A} (f : A -> A) (h : list A) x ext :
  alter f (List.length h) (h ++ x :: ext) = h ++ f x :: ext.
Proof.
  rewrite <- (Nat.add_0_r (List.length h)). by rewrite alter_app_r.
Qed.

Lemma lookup_app_add {A} (h l : list A) k :
  (h ++ l) !! (List.length h + k) = l !! k.
Proof. rewrite lookup_app_r by lia. f_equal. lia. Qed.

(** [alloc] only appends to the heap, and what it appends starts with the
    node of the tree's root. *)
Lemma alloc_grows t : forall p h,
  exists ext, alloc p t h = (List.length h, h ++ ext) /\ starts_with p t ext.
Proof.
  induction t as [s|ns name attrs kids IH] using HtmlFacts.Tree_forall_ind; intros p h.
  - eexists. split; [reflexivity|]. eexists _, _. done.
  - cbn [alloc].
    set (go := fix go (ks : list Html.Tree) (h0 : Heap) {struct ks} : list nat * Heap := _).
    set (n0 := mkNode (Element ns name attrs) (Some p) [] None).
    assert (Hgo : forall h0, exists ids ext, go kids h0 = (ids, h0 ++ ext)).
    { induction IH as [|k kids Hk _ IHkids]; intros h0.
      - exists [], []. simpl. by rewrite app_nil_r.
      - simpl. destruct (Hk (List.length h) h0) as (ext1 & -> & _).
        destruct (IHkids (h0 ++ ext1)) as (ids & ext2 & ->).
        eexists _, (ext1 ++ ext2). by rewrite app_assoc. }
    destruct (Hgo (h ++ [n0])) as (ids & ext & ->).
    exists (with_children ids n0 :: ext). split.
    + f_equal. rewrite <- app_assoc. simpl. by rewrite alter_middle.
    + eexists _, _. done.
Qed.

Lemma alloc_all_grows ts : forall p h,
  exists ids ext,
    alloc_all p ts h = (ids, h ++ ext)
    /\ match ts with
       | [] => ids = [] /\ ext = []
       | t :: _ => head ids = Some (List.length h) /\ starts_with p t ext
       end.
Proof.
  induction ts as [|t ts IH]; intros p h.
  - exists [], []. simpl. by rewrite app_nil_r.
  - simpl. destruct (alloc_grows t p h) as (ext1 & -> & Hs).
    destruct (IH p (h ++ ext1)) as (ids & ext2 & -> & _).
    exists (List.length h :: ids), (ext1 ++ ext2).
    split; [by rewrite app_assoc|]. split; [done|].
    destruct Hs as (n & rest & -> & Hk & Hp). eexists _, _. done.
Qed.



(** *** No node is ever destroyed *)

Lemma grows_ret {A} (a : A) : grows (ret a).
Proof. intros h. simpl. lia. Qed.

Lemma grows_throw {A} e : grows (@throw Heap A e).
Proof. intros h. simpl. lia. Qed.

Lemma grows_unmodelled {A} : grows (@unmodelled Heap A).
Proof. intros h. exact I. Qed.

Lemma grows_get : grows (@get_state Heap).
Proof. intros h. simpl. lia. Qed.

Lemma grows_bind {A B} (m : M Heap A) (k : A -> M Heap B) :
  grows m -> (forall a, grows (k a)) -> grows (and_then m k).
Proof.
  intros Hm Hk h. unfold and_then. specialize (Hm h).
  destruct (m h) as [a h'| |]; [|done|done].
  specialize (Hk a h'). destruct (k a h'); [lia|lia|done].
Qed.

Lemma grows_modify (f : Heap -> Heap) :
  (forall h, List.length h <= List.length (f h)) -> grows (modify f).
Proof. intros Hf h. apply Hf. Qed.

Lemma grows_forEach {A} (l : list A) (f : A -> M Heap unit) :
  (forall a, grows (f a)) -> grows (forEach l f).
Proof.
  intros Hf. induction l as [|x l IH]; simpl; [apply grows_ret|].
  apply grows_bind; [apply Hf | intros _; exact IH].
Qed.

Lemma grows_node i : grows (node i).
Proof. intros h. unfold node. destruct (h !! i); simpl; [lia|done]. Qed.

Lemma grows_store i n : grows (store i n).
Proof. apply grows_modify. intros h. by rewrite length_insert. Qed.

Lemma length_unlink i (h : Heap) : List.length (unlink i h) = List.length h.
Proof.
  unfold unlink. destruct (h !! i) as [n|]; [|done].
  destruct (parent n); [|done]. by rewrite !length_alter.
Qed.

Lemma length_link p r i (h : Heap) : List.length (link p r i h) = List.length h.
Proof. unfold link. by rewrite !length_alter. Qed.

Lemma grows_createElement tag : grows (createElement tag).
Proof.
  intros h. unfold createElement. destruct (valid_element_name tag); [|done].
  rewrite length_app. lia.
Qed.

Ltac grows_step :=
  first
    [ apply grows_ret | apply grows_throw | apply grows_unmodelled
    | apply grows_get | apply grows_node | apply grows_store
    | apply grows_createElement
    | apply grows_bind; [|intros ?]
    | apply grows_forEach; intros ?
    | match goal with
      | |- grows (match ?x with _ => _ end) => destruct x
      | |- grows (if ?x then _ else _) => destruct x
      end ].

Lemma grows_insertBefore p c r : grows (insertBefore p c r).
Proof.
  unfold insertBefore. repeat grows_step;
    apply grows_modify; intros h; rewrite length_link, length_unlink; lia.
Qed.

Lemma grows_removeChild p c : grows (removeChild p c).
Proof.
  unfold removeChild. repeat grows_step.
  apply grows_modify; intros h. rewrite length_unlink. lia.
Qed.

Lemma length_orphan l (h : Heap) : List.length (orphan l h) = List.length h.
Proof.
  unfold orphan. induction l as [|x l IH]; simpl; [done|].
  by rewrite length_alter.
Qed.

Lemma grows_set_innerHTML i html : grows (set_innerHTML i html).
Proof.
  unfold set_innerHTML. repeat grows_step.
  apply grows_modify. intros h.
  match goal with |- context [alloc_all ?p ?ts ?h0] =>
    destruct (alloc_all_grows ts p h0) as (ids & ext & -> & _) end.
  rewrite length_alter, length_app.
  rewrite length_orphan. lia.
Qed.

Lemma grows_set_disabled i b : grows (set_disabled i b).
Proof. unfold set_disabled. repeat grows_step. Qed.

Lemma grows_firstChild i : grows (firstChild i).
Proof. unfold firstChild. repeat grows_step. Qed.

Lemma grows_firstElementChild i : grows (firstElementChild i).
Proof. unfold firstElementChild. repeat grows_step. Qed.

Lemma grows_parentElement i : grows (parentElement i).
Proof. unfold parentElement. repeat grows_step. Qed.

Lemma set_disabled_returns i b h :
  (exists h', set_disabled i b h = Val tt h') \/ set_disabled i b h = Unmodelled.
Proof.
  unfold set_disabled, and_then, node.
  destruct (h !! i) as [n|]; [|by right].
  destruct (sheet_owner n); [by right|].
  destruct (reflects_disabled n); [destruct (kind n)|]; left; eexists; reflexivity.
Qed.

Lemma valid_mono (h h' : Heap) r :
  List.length h <= List.length h' -> valid h r -> valid h' r.
Proof. destruct r; simpl; [lia|done]. Qed.











End DomFacts.

(** ** Properties of the helper functions *)

Module DomUtilsFacts.
Import Dom DomUtils StringFacts HtmlFacts DomFacts.

Lemma hasClass_spec h e n t :
  h !! e = Some n -> is_element n = true ->
  hasClass (Some e) t h = Val (bool_decide (t ∈ tokens_of n)) h.
Proof.
  intros He Hel. unfold hasClass, classList_contains, and_then, node.
  rewrite He. unfold is_element, tokens_of in *.
  destruct (kind n); [|done]. cbn. unfold ret. by rewrite existsb_eqb.
Qed.

(** Setting the pairs of an object one after the other appends them to the
    element's attributes, when no name comes twice. *)
Lemma each_setAttribute (i : nat) (l : list (string * Value)) :
  forall (h : Heap) ln acc par ch ex,
    h !! i = Some (mkNode (Element HTML ln acc) par ch ex) ->
    Forall (fun kv => valid_attribute_name (fst kv) = true) l ->
    NoDup (map (fun kv => lower (fst kv)) l) ->
    (forall kv, kv ∈ l -> lower (fst kv) ∉ map fst acc) ->
    each l (fun value key => setAttribute (Some i) key value) h
    = Val tt (<[i := mkNode (Element HTML ln
                (acc ++ map (fun kv => (lower (fst kv), toString (snd kv))) l))
                par ch ex]> h).
Proof.
  induction l as [|[k v] l IH]; intros h ln acc par ch ex Hi Hv Hnd Hfresh.
  - simpl. rewrite app_nil_r. unfold each, forEach, ret.
    by rewrite list_insert_id.
  - apply Forall_cons in Hv as [Hk Hv]. simpl in Hk.
    simpl in Hnd. apply NoDup_cons in Hnd as [Hkl Hnd].
    unfold each in *. cbn [forEach]. unfold and_then at 1.
    unfold setAttribute at 1, Dom.setAttribute, and_then, node.
    rewrite Hi. cbn. rewrite Hk. unfold store, modify. cbn.
    rewrite attr_set_fresh by (apply (Hfresh (k, v)); left).
    erewrite IH; cycle 1.
    + by eapply lookup_insert_here.
    + done.
    + done.
    + intros kv Hin. rewrite map_app. intros Hel.
      apply elem_of_app in Hel as [Hel|Hel].
      * apply (Hfresh kv); [by right|done].
      * simpl in Hel. apply list_elem_of_singleton in Hel.
        apply Hkl. rewrite <- Hel.
        apply (list_elem_of_fmap_2 (fun kv => lower (fst kv)) l kv) in Hin.
        exact Hin.
    + rewrite list_insert_insert_eq. by rewrite <- app_assoc.
Qed.

(** [domify] on markup that the parser model covers: a new parentless
    [div] takes the parsed nodes, and its first child comes back. *)
Lemma domify_parsed h html ts :
  Html.parse_fragment html = Some ts ->
  exists ids ext,
    domify html h
    = Val (head ids)
        (h ++ mkNode (Element HTML "div" []) None ids None :: ext)
    /\ alloc_all (List.length h) ts
         (h ++ [mkNode (Element HTML "div" []) None [] None])
       = (ids, (h ++ [mkNode (Element HTML "div" []) None [] None]) ++ ext)
    /\ match ts with
       | [] => ids = [] /\ ext = []
       | t :: _ =>
           head ids = Some (S (List.length h))
           /\ starts_with (List.length h) t ext
       end.
Proof.
  intros Hparse.
  set (d := mkNode (Element HTML "div" []) None [] None).
  destruct (alloc_all_grows ts (List.length h) (h ++ [d]))
    as (ids & ext & Halloc & Hshape).
  exists ids, ext. split.
  - unfold domify, and_then.
    change (create "div" [] h) with (Val (List.length h) (h ++ [d])).
    cbv beta iota.
    unfold set_innerHTML, and_then, node.
    rewrite list_lookup_middle by done. cbv beta iota.
    change (kind d) with (Element HTML "div" []). cbv beta iota.
    change (String.eqb "div" "div") with true. cbv beta iota.
    rewrite Hparse. unfold modify. cbv beta iota.
    change (children d) with (@nil nat). unfold orphan. simpl foldr.
    rewrite Halloc. cbv beta iota.
    unfold firstChild, and_then, node.
    rewrite <- app_assoc. simpl app. rewrite alter_middle.
    rewrite list_lookup_middle by done. reflexivity.
  - split; [exact Halloc|].
    destruct ts; [done|]. rewrite length_app in Hshape. simpl in Hshape.
    by rewrite Nat.add_1_r in Hshape.
Qed.


Lemma grows_setAttribute elm name value : grows (setAttribute elm name value).
Proof. unfold setAttribute, Dom.setAttribute. repeat grows_step. Qed.

Lemma grows_removeAttribute elm names : grows (removeAttribute elm names).
Proof. unfold removeAttribute, Dom.removeAttribute. repeat grows_step. Qed.

Lemma grows_create tag attrs : grows (create tag attrs).
Proof.
  unfold create, each. repeat grows_step.
Qed.

Lemma grows_domify html : grows (domify html).
Proof.
  unfold domify.
  apply grows_bind; [apply grows_create | intros d].
  apply grows_bind; [apply grows_set_innerHTML | intros _].
  apply grows_firstChild.
Qed.

Lemma grows_remove elms : grows (remove elms).
Proof.
  unfold remove. apply grows_forEach. intros [e|]; [|apply grows_ret].
  apply grows_bind; [apply grows_parentElement | intros [p|]];
    [apply grows_removeChild | apply grows_throw].
Qed.

Lemma grows_append p c : grows (append p c).
Proof.
  unfold append, appendChild.
  destruct p; [apply grows_insertBefore | apply grows_ret].
Qed.

Lemma grows_before e r : grows (before e r).
Proof.
  unfold before. destruct e as [e|], r as [r|]; try apply grows_ret.
  apply grows_bind; [apply grows_parentElement | intros [p|]];
    [apply grows_insertBefore | apply grows_ret].
Qed.





Lemma domify_unparsed h html :
  Html.parse_fragment html = None -> domify html h = Unmodelled.
Proof.
  intros Hparse. unfold domify, and_then.
  change (create "div" [] h)
    with (Val (List.length h)
            (h ++ [mkNode (Element HTML "div" []) None [] None])).
  cbv beta iota. unfold set_innerHTML, and_then, node.
  rewrite list_lookup_middle by done. cbv beta iota.
  change (kind (mkNode (Element HTML "div" []) None [] None))
    with (Element HTML "div" []). cbv beta iota.
  change (String.eqb "div" "div") with true. cbv beta iota.
  by rewrite Hparse.
Qed.

(** What [domify] returns is a node of the heap it leaves. *)
Lemma domify_valid h html r h' :
  domify html h = Val r h' -> valid h' r.
Proof.
  intros Hrun. destruct (Html.parse_fragment html) as [ts|] eqn:Hparse.
  - destruct (domify_parsed h html ts Hparse)
      as (ids & ext & Hrun' & _ & Hshape).
    rewrite Hrun' in Hrun. injection Hrun as <- <-.
    destruct ts as [|t ts].
    + by destruct Hshape as [-> _].
    + destruct Hshape as (-> & n & rest & -> & _). simpl.
      rewrite length_app. simpl. lia.
  - by rewrite domify_unparsed in Hrun.
Qed.

(** C3. Each helper that takes an element first -- find, child, remove,
    append, before, applyStyle, addClass, removeClass, hasClass,
    setAttribute, getAttribute, removeAttribute -- called with a null
    element returns (null, false, or nothing) and leaves every node as it
    was: none of them throws, whatever the other arguments are. *)
Theorem null_element_is_harmless :
  forall (selector_matches : string -> option (Heap -> nat -> bool))
         (style_assign : string -> string -> option string -> option string)
         (h : Heap) (selector : option string) (className name : string)
         (other : Ref) (styles : list (string * Value))
         (classes names : OneOrMany string) (value : Value),
    find selector_matches None selector h = Val None h
    /\ child None className h = Val None h
    /\ remove (One None) h = Val tt h
    /\ append None other h = Val tt h
    /\ before None other h = Val tt h
    /\ applyStyle style_assign None styles h = Val tt h
    /\ addClass None classes h = Val tt h
    /\ removeClass None classes h = Val tt h
    /\ hasClass None className h = Val false h
    /\ setAttribute None name value h = Val tt h
    /\ getAttribute None name h = Val None h
    /\ removeAttribute None names h = Val tt h.
Proof.
  intros. repeat split; reflexivity.
Qed.


(** C5 (as amended). For a valid tag name and an [attrs] object whose keys
    are valid attribute names, no two alike up to ASCII case, and whose
    values are strings, booleans, [null], [undefined] or safe integers,
    [create(tag, attrs)] returns a new, parentless element of the given tag
    (lower-cased) on which every key/value pair of [attrs] is set as an
    attribute holding the value converted to a string, falsy values
    included; [getAttribute] then reads each of them back. *)
Theorem create_sets_every_pair :
  forall (h : Heap) (tag : string) (attrs : list (string * Value)),
    valid_element_name tag = true ->
    Forall (fun kv => valid_attribute_name (fst kv) = true) attrs ->
    NoDup (map (fun kv => lower (fst kv)) attrs) ->
    Forall (fun kv => safe_value (snd kv)) attrs ->
    exists h',
      create tag attrs h = Val (List.length h) h'
      /\ h' = h ++ [mkNode
                      (Element HTML (lower tag)
                         (map (fun kv => (lower (fst kv), toString (snd kv)))
                            attrs))
                      None [] None]
      /\ forall k v,
           (k, v) ∈ attrs ->
           getAttribute (Some (List.length h)) k h'
           = Val (Some (toString v)) h'.
Proof.
  intros h tag attrs Htag Hkeys Hnd _.
  eexists. split; [|split; [reflexivity|]].
  - unfold create, and_then, createElement. rewrite Htag.
    erewrite each_setAttribute; cycle 1.
    + by apply list_lookup_middle.
    + exact Hkeys.
    + exact Hnd.
    + intros kv _. simpl. apply not_elem_of_nil.
    + unfold ret. f_equal. simpl.
      rewrite insert_app_r_alt by done.
      by rewrite Nat.sub_diag.
  - intros k v Hin. unfold getAttribute, Dom.getAttribute, and_then, node.
    rewrite list_lookup_middle by done. cbn. unfold ret. f_equal.
    by apply (attr_get_map lower toString).
Qed.

(** [create('div', {id: 'x', 'data-y': 'z'})]. *)
Lemma create_sets_every_pair_witness :
  exists h',
    create "div" [("id", VStr "x"); ("data-y", VStr "z")] [] = Val 0 h'
    /\ getAttribute (Some 0) "id" h' = Val (Some "x") h'
    /\ getAttribute (Some 0) "data-y" h' = Val (Some "z") h'.
Proof.
  destruct (create_sets_every_pair []
              "div" [("id", VStr "x"); ("data-y", VStr "z")])
    as (h' & Hrun & _ & Hget).
  - reflexivity.
  - repeat constructor.
  - apply (bool_decide_unpack _). vm_compute. reflexivity.
  - repeat constructor.
  - exists h'. split; [exact Hrun|].
    split; [apply (Hget "id" (VStr "x")); left
           | apply (Hget "data-y" (VStr "z")); right; left].
Defined.

(** C5 as first stated fails: a pair whose value is falsy is set like any
    other.  The empty string, zero and false all end up on the element. *)
Lemma create_keeps_falsy_values :
  exists h',
    create "div"
      [("title", VStr ""); ("tabindex", VNum 0); ("draggable", VBool false)]
      [] = Val 0 h'
    /\ getAttribute (Some 0) "title" h' = Val (Some "") h'
    /\ getAttribute (Some 0) "tabindex" h' = Val (Some "0") h'
    /\ getAttribute (Some 0) "draggable" h' = Val (Some "false") h'.
Proof.
  eexists. split_and!; vm_compute; reflexivity.
Qed.

(** C6 (as amended). For an element and two distinct class names [a] and
    [b], each not empty and free of whitespace, [addClass(elm, [a, b])]
    makes [hasClass(elm, a)] and [hasClass(elm, b)] true, and
    [removeClass(elm, a)] then makes [hasClass(elm, a)] false while
    [hasClass(elm, b)] stays true. *)
Theorem add_then_remove_class :
  forall (h : Heap) (e : nat) (n : Node) (a b : string),
    h !! e = Some n -> is_element n = true ->
    token a -> token b -> a <> b ->
    exists h1 h2,
      addClass (Some e) (Many [a; b]) h = Val tt h1
      /\ hasClass (Some e) a h1 = Val true h1
      /\ hasClass (Some e) b h1 = Val true h1
      /\ removeClass (Some e) (One a) h1 = Val tt h2
      /\ hasClass (Some e) a h2 = Val false h2
      /\ hasClass (Some e) b h2 = Val true h2.
Proof.
  intros h e n a b He Hel Ha Hb Hab.
  destruct (classList_add_spec h e n a He Hel Ha) as (n1 & Hadd1 & Hel1 & Ht1).
  pose proof (lookup_insert_here h e n n1 He) as He1.
  destruct (classList_add_spec _ e n1 b He1 Hel1 Hb)
    as (n2 & Hadd2 & Hel2 & Ht2).
  rewrite list_insert_insert_eq in Hadd2.
  pose proof (lookup_insert_here h e n n2 He) as He2.
  destruct (classList_remove_spec _ e n2 a He2 Hel2 Ha)
    as (h2 & n3 & Hrem & He3 & Hel3 & Ht3).
  exists (<[e := n2]> h), h2.
  assert (Hne : forall t, token t -> String.eqb t "" = false)
    by (intros t [? _]; by apply eqb_empty_false).
  split.
  { unfold addClass, addOrRemoveClasses, toArray. cbn [forEach].
    unfold and_then. rewrite (Hne a Ha), Hadd1, (Hne b Hb), Hadd2. done. }
  rewrite !(hasClass_spec _ e n2) by done.
  rewrite !(hasClass_spec _ e n3) by done.
  rewrite Ht3, Ht2, Ht1.
  split; [f_equal; apply bool_decide_eq_true;
          rewrite !ordered_append_elem; tauto|].
  split; [f_equal; apply bool_decide_eq_true;
          rewrite !ordered_append_elem; tauto|].
  split.
  { unfold removeClass, addOrRemoveClasses, toArray. cbn [forEach].
    unfold and_then. rewrite (Hne a Ha), Hrem. done. }
  split; f_equal.
  - apply bool_decide_eq_false. rewrite elem_of_filter_neq. tauto.
  - apply bool_decide_eq_true.
    rewrite elem_of_filter_neq, !ordered_append_elem.
    split; [tauto | congruence].
Qed.

(** A [div] of class [c], with [a] and [b] added and [a] removed again. *)
Lemma add_then_remove_class_witness :
  exists h1 h2,
    addClass (Some 0) (Many ["a"; "b"])
      [mkNode (Element HTML "div" [("class", "c")]) None [] None]
    = Val tt h1
    /\ hasClass (Some 0) "a" h1 = Val true h1
    /\ hasClass (Some 0) "b" h1 = Val true h1
    /\ removeClass (Some 0) (One "a") h1 = Val tt h2
    /\ hasClass (Some 0) "a" h2 = Val false h2
    /\ hasClass (Some 0) "b" h2 = Val true h2.
Proof.
  apply (add_then_remove_class
           [mkNode (Element HTML "div" [("class", "c")]) None [] None]
           0 (mkNode (Element HTML "div" [("class", "c")]) None [] None)
           "a" "b").
  - reflexivity.
  - reflexivity.
  - split; [discriminate | reflexivity].
  - split; [discriminate | reflexivity].
  - discriminate.
Defined.

(** C6 as first stated fails: [addClass(elm, 'a b')] hands the whole string
    to [classList.add], which refuses a token with a space in it; the call
    throws and the element gets no class. *)
Lemma addClass_refuses_spaced_names :
  addClass (Some 0) (One "a b") [Sample.div None []]
  = Throw InvalidCharacterError [Sample.div None []].
Proof. vm_compute. reflexivity. Qed.




(** C4 fails on the code: [remove] reads [elm.parentElement.removeChild]
    with no test of the parent, so an element that has no parent makes it
    throw, where [before] -- its sibling -- tests [ref.parentElement]
    first.  Here the element is a [div] that was never attached. *)
Theorem remove_throws_without_parent :
  remove (One (Some 0)) [Sample.div None []]
  = Throw TypeError [Sample.div None []]
  /\ before (Some 1) (Some 0) [Sample.div None []; Sample.div None []]
     = Val tt [Sample.div None []; Sample.div None []].
Proof. split; vm_compute; reflexivity. Qed.

(** What [remove] does do: an attached element is taken out of its parent,
    and null entries are passed over. *)
Example remove_detaches_attached_entries :
  remove (Many [None; Some 1; None])
    [Sample.div None [1; 2]; Sample.div (Some 0) []; Sample.div (Some 0) []]
  = Val tt
      [Sample.div None [2]; Sample.div None []; Sample.div (Some 0) []].
Proof. vm_compute. reflexivity. Qed.

End DomUtilsFacts.

(** ** Properties of the Arrows component *)

Module ArrowsFacts.
Import Html Dom DomUtils Arrows StringFacts HtmlFacts DomFacts DomUtilsFacts.






Lemma env_step_refl w : env_step w w.
Proof. unfold env_step. auto. Qed.

Lemma env_step_trans w1 w2 w3 : env_step w1 w2 -> env_step w2 w3 -> env_step w1 w3.
Proof.
  unfold env_step. intros (Hs1 & Hl1 & Hn1) (Hs2 & Hl2 & Hn2).
  split_and!; [by rewrite Hs2 | by rewrite Hl2 | lia].
Qed.

Lemma Inv_env_step w w' : Inv w -> env_step w w' -> Inv w'.
Proof.
  intros [Hl|(p & n & Hp & Hn & Hlp & Hln)] (Hs & Hl' & Hlen).
  - left. by rewrite Hl'.
  - right. exists p, n. rewrite Hs. split_and!; [done|done|lia|lia].
Qed.

Lemma ensures_bind {A B} (m : M World A) (k : A -> M World B) w Q1 Q E :
  ensures m w Q1 E ->
  (forall a w', Q1 a w' -> ensures (k a) w' Q E) ->
  ensures (and_then m k) w Q E.
Proof.
  unfold ensures, and_then. intros Hm Hk.
  destruct (m w) as [a w'| |]; [by apply Hk|done|done].
Qed.

Lemma ensures_weaken {A} (m : M World A) w (Q Q' : A -> World -> Prop) (E E' : World -> Prop) :
  ensures m w Q E ->
  (forall a w', Q a w' -> Q' a w') -> (forall w', E w' -> E' w') ->
  ensures m w Q' E'.
Proof.
  unfold ensures. intros Hm HQ HE. destruct (m w); auto.
Qed.

Lemma quiet_ret {A} (a : A) : quiet (ret a).
Proof. intros w. apply env_step_refl. Qed.

Lemma quiet_throw {A} e : quiet (@throw World A e).
Proof. intros w. apply env_step_refl. Qed.

Lemma quiet_get : quiet (@get_state World).
Proof. intros w. apply env_step_refl. Qed.

Lemma quiet_bind {A B} (m : M World A) (k : A -> M World B) :
  quiet m -> (forall a, quiet (k a)) -> quiet (and_then m k).
Proof.
  intros Hm Hk w. eapply ensures_bind; [apply Hm|].
  intros a w' Hstep. eapply ensures_weaken; [apply Hk| |];
    simpl; intros; (eapply env_step_trans; [exact Hstep | eassumption]).
Qed.

Lemma quiet_forEach {A} (l : list A) (f : A -> M World unit) :
  (forall a, quiet (f a)) -> quiet (forEach l f).
Proof.
  intros Hf. induction l as [|x l IH]; simpl; [apply quiet_ret|].
  apply quiet_bind; [apply Hf | intros _; exact IH].
Qed.

Lemma quiet_dom {A} (m : M Heap A) : grows m -> quiet (dom m).
Proof.
  intros Hm w. unfold ensures, dom, zoom. specialize (Hm (heap w)).
  destruct (m (heap w)); unfold env_step; simpl; auto.
Qed.

Lemma quiet_emit ev args : quiet (emit ev args).
Proof. intros w. unfold ensures, emit, modify, env_step. simpl. auto. Qed.

Lemma quiet_go control : quiet (go control).
Proof. intros w. unfold ensures, go, modify, env_step. simpl. auto. Qed.

Lemma quiet_appendArrows : quiet appendArrows.
Proof.
  unfold appendArrows.
  apply quiet_bind; [apply quiet_get | intros w].
  apply quiet_bind; [apply quiet_dom, grows_create | intros wrapper].
  apply quiet_bind; [apply quiet_dom, grows_append | intros _].
  apply quiet_bind; [apply quiet_dom, grows_append | intros _].
  apply quiet_bind; [apply quiet_get | intros w'].
  apply quiet_bind; [apply quiet_dom, grows_firstElementChild | intros first].
  apply quiet_dom, grows_before.
Qed.

Lemma quiet_mounted : quiet mounted.
Proof.
  unfold mounted. apply quiet_bind; [apply quiet_get | intros w].
  apply quiet_emit.
Qed.

Lemma quiet_destroy : quiet destroy.
Proof.
  unfold destroy. apply quiet_bind; [apply quiet_get | intros w].
  apply quiet_bind.
  - apply quiet_forEach. intros elm. apply quiet_dom, grows_removeAttribute.
  - intros _. destruct (created (self w)); [|apply quiet_ret].
    destruct (prev (self w)); [|apply quiet_throw].
    apply quiet_bind; [apply quiet_dom, grows_parentElement | intros wrapper].
    apply quiet_dom, grows_remove.
Qed.

Lemma quiet_onClick b : quiet (onClick b).
Proof.
  unfold onClick. apply quiet_bind; [apply quiet_get | intros w].
  apply quiet_go.
Qed.

Lemma quiet_updateDisabled : quiet updateDisabled.
Proof.
  unfold updateDisabled. apply quiet_bind; [apply quiet_get | intros w].
  apply quiet_bind.
  { destruct (prev (self w)); [apply quiet_dom, grows_set_disabled | apply quiet_throw]. }
  intros _. apply quiet_bind.
  { destruct (next (self w)); [apply quiet_dom, grows_set_disabled | apply quiet_throw]. }
  intros _. apply quiet_emit.
Qed.

Lemma quiet_run_handler f : quiet (run_handler f).
Proof. destruct f; [apply quiet_onClick | apply quiet_updateDisabled]. Qed.

Lemma quiet_after {A} (m : M World A) w w' :
  quiet m -> after (m w) = Some w' -> env_step w w'.
Proof.
  intros Hm Ha. specialize (Hm w). unfold ensures in Hm.
  destruct (m w); simpl in Ha; [by injection Ha as <- | by injection Ha as <- | done].
Qed.

Lemma createArrow_spec b w :
  ensures (createArrow b) w
    (fun r w' => env_step w w' /\ valid (heap w') r)
    (fun w' => env_step w w').
Proof.
  unfold createArrow. eapply ensures_bind with (Q1 := fun a w' => a = w /\ w' = w);
    [done|]. intros ? ? [-> ->].
  match goal with |- ensures (dom (domify ?s)) _ _ _ => set (html := s) end.
  pose proof (quiet_dom _ (grows_domify html) w) as Hq.
  unfold ensures, dom, zoom in *.
  destruct (domify html (heap w)) as [r h'| |] eqn:Hrun; [|done|done].
  split; [done|]. simpl. by eapply domify_valid.
Qed.

Lemma Ready_env_step w w' : Ready w -> env_step w w' -> Ready w'.
Proof.
  intros (Hl & Hp & Hn) (Hs & Hl' & Hlen). unfold Ready.
  rewrite Hs, Hl'. split_and!; [done| |]; by eapply valid_mono.
Qed.

Lemma Ready_Inv w : Ready w -> Inv w.
Proof. intros (Hl & _). by left. Qed.

Lemma createArrow_ready b w :
  Ready w ->
  ensures (createArrow b) w (fun r w' => Ready w' /\ valid (heap w') r) Inv.
Proof.
  intros HR. eapply ensures_weaken; [apply createArrow_spec| |]; simpl.
  - intros r w' (Hs & Hv). split; [by eapply Ready_env_step|done].
  - intros w' Hs. apply Ready_Inv. by eapply Ready_env_step.
Qed.

Lemma appendArrows_ready w :
  Ready w -> ensures appendArrows w (fun _ w' => Ready w') Inv.
Proof.
  intros HR. eapply ensures_weaken; [apply quiet_appendArrows| |]; simpl.
  - intros _ w' Hs. by eapply Ready_env_step.
  - intros w' Hs. apply Ready_Inv. by eapply Ready_env_step.
Qed.

Lemma mount_establishes w0 :
  Fresh w0 -> ensures mount w0 (fun _ w => Inv w) Inv.
Proof.
  intros ((nm & Hnew) & Hl & Hvp & Hvn).
  unfold mount.
  eapply ensures_bind with (Q1 := fun a w' => a = w0 /\ w' = w0); [done|].
  intros ? ? [-> ->].
  eapply ensures_bind with (Q1 := fun _ w' =>
      heap w' = heap w0 /\ host w' = host w0
      /\ prev (self w') = elements_prev (host w0)).
  { unfold ensures, set_prev, modify. simpl. done. }
  intros _ w1 (Hh1 & Hx1 & Hp1).
  eapply ensures_bind with (Q1 := fun _ w' => Ready w').
  { unfold ensures, set_next, modify, Ready. simpl.
    rewrite Hx1, Hh1, Hp1. done. }
  clear dependent w1. intros _ w1 HR1.
  eapply ensures_bind with (Q1 := fun a w' => a = w1 /\ w' = w1); [done|].
  intros ? ? [-> ->].
  eapply ensures_bind with (Q1 := fun _ w' => Ready w').
  { match goal with |- ensures (if ?c then _ else _) _ _ _ => destruct c end;
      [|done].
    eapply ensures_bind; [by apply createArrow_ready|].
    intros p w2 (HR2 & Hvp2).
    eapply ensures_bind with (Q1 := fun _ w' => Ready w').
    { unfold ensures, set_prev, modify, Ready. simpl.
      destruct HR2 as (? & ? & ?). done. }
    clear dependent w2. intros _ w2 HR2.
    eapply ensures_bind; [by apply createArrow_ready|].
    intros n w3 (HR3 & Hvn3).
    eapply ensures_bind with (Q1 := fun _ w' => Ready w').
    { unfold ensures, set_next, modify, Ready. simpl.
      destruct HR3 as (? & ? & ?). done. }
    clear dependent w3. intros _ w3 HR3.
    eapply ensures_bind with (Q1 := fun _ w' => Ready w').
    { unfold ensures, set_created, modify, Ready. simpl. done. }
    clear dependent w3. intros _ w3 HR3.
    by apply appendArrows_ready. }
  clear dependent w1. intros _ w1 HR1.
  eapply ensures_bind with (Q1 := fun a w' => a = w1 /\ w' = w1); [done|].
  intros ? ? [-> ->].
  eapply ensures_bind with (Q1 := fun _ w' => Inv w').
  { destruct HR1 as (Hl1 & Hp1 & Hn1).
    destruct (prev (self w1)) as [p|] eqn:Ep; [|by left].
    destruct (next (self w1)) as [n|] eqn:En; [|by left].
    simpl. unfold Arrows.bind, ensures, and_then, get_state, on, modify.
    simpl. right. exists p, n. done. }
  clear dependent w1. intros _ w1 HI.
  eapply ensures_bind with (Q1 := fun a w' => a = w1 /\ w' = w1); [done|].
  intros ? ? [-> ->].
  unfold ensures, set_arrows_prop, modify. simpl. exact HI.
Qed.

(** With both arrows at hand, no handler throws. *)
Lemma run_handler_returns f w p n :
  prev (self w) = Some p -> next (self w) = Some n ->
  (exists w', run_handler f w = Val tt w') \/ run_handler f w = Unmodelled.
Proof.
  intros Hp Hn. destruct f as [b|]; simpl.
  - left. unfold onClick, and_then, get_state, go, modify.
    eexists. reflexivity.
  - unfold updateDisabled, and_then, get_state. cbv beta iota zeta.
    rewrite Hp, Hn. unfold dom, zoom.
    match goal with |- context [set_disabled p ?b ?h] =>
      destruct (set_disabled_returns p b h) as [[h1 ->]| ->] end; [|by right].
    cbv beta iota.
    match goal with |- context [set_disabled n ?b ?h] =>
      destruct (set_disabled_returns n b h) as [[h2 ->]| ->] end; [|by right].
    left. eexists. reflexivity.
Qed.

Lemma Reachable_Inv w : Reachable w -> Inv w.
Proof.
  induction 1 as [w0 w HF Hm|w w' _ IH Hm|w w' _ IH Hm|w l w' _ IH Hin Hm
                 |w w' _ IH Hs].
  - pose proof (mount_establishes w0 HF) as He. unfold ensures in He.
    destruct (mount w0); simpl in Hm; [| |done]; by injection Hm as <-.
  - eapply Inv_env_step; [exact IH|].
    eapply quiet_after; [apply quiet_mounted|done].
  - eapply Inv_env_step; [exact IH|].
    eapply quiet_after; [apply quiet_destroy|done].
  - eapply Inv_env_step; [exact IH|].
    eapply quiet_after; [apply quiet_run_handler|done].
  - by eapply Inv_env_step.
Qed.

(** C1. When both arrows are there (two different nodes, neither a [style]
    element), [updateDisabled] returns, having set the previous arrow's
    [disabled] to true exactly when the previous index is negative or the
    number of items does not exceed the items per page, and the next
    arrow's likewise from the next index; it then sends the [updated]
    notification of this component with both arrows and both indices.  In
    particular, with previous index -1, next index 2 and enough items, the
    previous arrow is disabled and the next one is not. *)
Theorem updateDisabled_sets_flags_and_emits :
  forall (w : World) (p n : nat) (np nn : Node),
    prev (self w) = Some p -> next (self w) = Some n -> p <> n ->
    heap w !! p = Some np -> heap w !! n = Some nn ->
    sheet_owner np = false -> sheet_owner nn = false ->
    let pi := prevIndex (host w) in
    let ni := nextIndex (host w) in
    let total := length (host w) in
    let per := perPage (options (host w)) in
    exists w' np' nn',
      updateDisabled w = Val tt w'
      /\ heap w' !! p = Some np' /\ heap w' !! n = Some nn'
      /\ (disabled np' = true <-> (pi < 0 \/ total <= per)%Z)
      /\ (disabled nn' = true <-> (ni < 0 \/ total <= per)%Z)
      /\ emitted (host w')
         = emitted (host w)
           ++ [((name (self w) ++ ":updated")%string,
                [AElm (Some p); AElm (Some n); ANum pi; ANum ni])]
      /\ (pi = (-1)%Z -> ni = 2%Z -> (per < total)%Z ->
          disabled np' = true /\ disabled nn' = false).
Proof.
  intros w p n np nn Hp Hn Hpn Hnp Hnn Hsp Hsn pi ni total per.
  destruct (set_disabled_spec (heap w) p np
              ((pi <? 0)%Z || negb (per <? total)%Z) Hnp Hsp)
    as (np' & Hset1 & Hd1 & _).
  assert (Hnn' : <[p := np']> (heap w) !! n = Some nn)
    by (rewrite list_lookup_insert_ne; done).
  destruct (set_disabled_spec _ n nn
              ((ni <? 0)%Z || negb (per <? total)%Z) Hnn' Hsn)
    as (nn' & Hset2 & Hd2 & _).
  eexists _, np', nn'.
  split.
  { unfold updateDisabled, and_then, get_state. cbv beta iota zeta.
    rewrite Hp, Hn. unfold dom, zoom. fold pi ni total per.
    rewrite Hset1. cbv beta iota. unfold with_heap at 1. simpl heap.
    rewrite Hset2. reflexivity. }
  cbn.
  split. { rewrite list_lookup_insert_ne by done. by eapply lookup_insert_here. }
  split. { eapply lookup_insert_here. exact Hnn'. }
  split. { rewrite Hd1. rewrite orb_true_iff, negb_true_iff, Z.ltb_lt, Z.ltb_ge. done. }
  split. { rewrite Hd2. rewrite orb_true_iff, negb_true_iff, Z.ltb_lt, Z.ltb_ge. done. }
  split; [done|].
  intros Hpi Hni Hen. rewrite Hd1, Hd2, Hpi, Hni.
  apply Z.ltb_lt in Hen. rewrite Hen. done.
Qed.

(** The bare page after [mount]: indices -1 and 2, three items, one per
    page. *)
Lemma updateDisabled_witness :
  exists w' np' nn',
    updateDisabled Sample.bare_mounted = Val tt w'
    /\ heap w' !! 3 = Some np' /\ heap w' !! 7 = Some nn'
    /\ disabled np' = true /\ disabled nn' = false.
Proof.
  edestruct (updateDisabled_sets_flags_and_emits Sample.bare_mounted 3 7)
    as (w' & np' & nn' & Hrun & H3 & H7 & _ & _ & _ & Hcase).
  - reflexivity.
  - reflexivity.
  - lia.
  - reflexivity.
  - reflexivity.
  - reflexivity.
  - reflexivity.
  - exists w', np', nn'.
    split; [exact Hrun|]. split; [exact H3|]. split; [exact H7|].
    apply Hcase; [reflexivity | reflexivity | reflexivity].
Defined.

(** C10. In every state a mounted component can reach, a listener is
    registered only if both [prev] and [next] are references to nodes:
    [mount] calls [bind] only then, and nothing changes the two variables
    afterwards.  So whenever the host invokes a registered handler --
    [onClick] or [updateDisabled] -- both arrows are there, and the handler
    does not throw. *)
Theorem listeners_only_with_both_arrows :
  forall (w : World) (l : Listener),
    Reachable w -> l ∈ listeners (host w) ->
    (exists p n,
       prev (self w) = Some p /\ next (self w) = Some n
       /\ p < List.length (heap w) /\ n < List.length (heap w))
    /\ ((exists w', run_handler (handler l) w = Val tt w')
        \/ run_handler (handler l) w = Unmodelled).
Proof.
  intros w l Hw Hl.
  destruct (Reachable_Inv w Hw) as [Hnil|(p & n & Hp & Hn & Hlp & Hln)].
  { rewrite Hnil in Hl. by apply elem_of_nil in Hl. }
  split; [by exists p, n|]. by eapply run_handler_returns.
Qed.

(** The bare page after [mount], and its listener for [move]. *)
Lemma listeners_only_with_both_arrows_witness :
  (exists p n,
     prev (self Sample.bare_mounted) = Some p
     /\ next (self Sample.bare_mounted) = Some n
     /\ p < List.length (heap Sample.bare_mounted)
     /\ n < List.length (heap Sample.bare_mounted))
  /\ ((exists w',
         run_handler HUpdateDisabled Sample.bare_mounted = Val tt w')
      \/ run_handler HUpdateDisabled Sample.bare_mounted = Unmodelled).
Proof.
  apply (listeners_only_with_both_arrows Sample.bare_mounted
           (mkListener "move" HUpdateDisabled None)).
  - apply (R_mount Sample.bare).
    + split; [by exists "arrows"|]. split; [reflexivity|]. split; exact I.
    + reflexivity.
  - do 3 right. left.
Defined.

(** The usual page: the wrapper goes in front of the track, and [destroy]
    takes it out again. *)
Example mount_and_destroy_on_the_bare_page :
  exists w w',
    mount Sample.bare = Val tt w
    /\ created (self w) = true
    /\ prev (self w) = Some 3 /\ next (self w) = Some 7
    /\ children_of (heap w) 0 = Some [10; 1]
    /\ children_of (heap w) 10 = Some [3; 7]
    /\ destroy w = Val tt w'
    /\ children_of (heap w') 0 = Some [1]
    /\ parent_of (heap w') 10 = Some None.
Proof. eexists _, _. split_and!; vm_compute; reflexivity. Qed.

(** Arrows found in the markup stay where they are: [destroy] changes
    nothing but the [disabled] attribute. *)
Example mount_and_destroy_on_marked_up_page :
  exists w w',
    mount Sample.marked_up = Val tt w
    /\ created (self w) = false
    /\ heap w = heap Sample.marked_up
    /\ destroy w = Val tt w'
    /\ heap w' = heap w.
Proof. eexists _, _. split_and!; vm_compute; reflexivity. Qed.

(** C8 fails on the code: [appendArrows] inserts the wrapper before
    [parent.firstElementChild], and [before] does nothing for a null
    reference; so when the region the wrapper is meant for has no element
    child -- the root of [Sample.hollow], the slider of
    [Sample.hollow_slider] -- [mount] returns with [created] set and the
    wrapper (node 9, node 11) attached nowhere. *)
Theorem appendArrows_skips_an_empty_region :
  (exists w,
     mount Sample.hollow = Val tt w
     /\ created (self w) = true
     /\ prev (self w) = Some 2 /\ next (self w) = Some 6
     /\ children_of (heap w) 9 = Some [2; 6]
     /\ parent_of (heap w) 9 = Some None
     /\ children_of (heap w) 0 = Some [])
  /\ (exists w,
        mount Sample.hollow_slider = Val tt w
        /\ created (self w) = true
        /\ prev (self w) = Some 4 /\ next (self w) = Some 8
        /\ children_of (heap w) 11 = Some [4; 8]
        /\ parent_of (heap w) 11 = Some None
        /\ children_of (heap w) 1 = Some []
        /\ children_of (heap w) 0 = Some [1; 2]).
Proof.
  split; eexists; split_and!; vm_compute; reflexivity.
Qed.

(** C2 fails on the code, through the defect of C8: on a page with no
    arrows in its markup, arrows enabled and an empty region to put them in
    ([Sample.hollow_slider]), [mount] sets [created] but inserts no wrapper,
    and the [destroy] that follows throws instead of removing one: its
    [remove(prev.parentElement)] meets a wrapper that has no parent. *)
Theorem destroy_throws_after_mount_on_empty_region :
  exists w w',
    mount Sample.hollow_slider = Val tt w
    /\ created (self w) = true
    /\ parent_of (heap w) 11 = Some None
    /\ heap w !! 0 = heap Sample.hollow_slider !! 0
    /\ heap w !! 1 = heap Sample.hollow_slider !! 1
    /\ destroy w = Throw TypeError w'.
Proof.
  eexists _, _. split_and!; vm_compute; reflexivity.
Qed.

(** C7 fails on the code, through the defect of C4: after the first
    [destroy] of fabricated arrows the wrapper has no parent, [created] is
    still set, and the second [destroy] throws in [remove]. *)
Theorem second_destroy_throws :
  exists w w1 w2,
    mount Sample.bare = Val tt w
    /\ destroy w = Val tt w1
    /\ parent_of (heap w1) 10 = Some None
    /\ created (self w1) = true
    /\ destroy w1 = Throw TypeError w2.
Proof.
  eexists _, _, _. split_and!; vm_compute; reflexivity.
Qed.

(** With arrows from the markup a second [destroy] changes nothing. *)
Example second_destroy_on_marked_up_page :
  exists w w1,
    mount Sample.marked_up = Val tt w
    /\ destroy w = Val tt w1
    /\ destroy w1 = Val tt w1.
Proof. eexists _, _. split_and!; vm_compute; reflexivity. Qed.

End ArrowsFacts.

(** ** More about the helper functions *)

Module DomUtilsProps.
Import Dom DomUtils StringFacts HtmlFacts DomFacts DomUtilsFacts.

Lemma attr_get_set_ne k k' v l :
  k' <> k -> attr_get k' (attr_set k v l) = attr_get k' l.
Proof.
  intros Hne. induction l as [|[k0 v0] l IH]; simpl.
  - by rewrite (proj2 (String.eqb_neq k k')) by done.
  - destruct (String.eqb_spec k0 k) as [->|Hk]; simpl.
    + by rewrite !(proj2 (String.eqb_neq k k')) by done.
    + by rewrite IH.
Qed.

Lemma attr_get_remove_ne k k' l :
  k' <> k -> attr_get k' (attr_remove k l) = attr_get k' l.
Proof.
  intros Hne. unfold attr_remove.
  induction l as [|[k0 v0] l IH]; simpl; [done|].
  destruct (String.eqb_spec k0 k) as [->|Hk]; simpl.
  - by rewrite (proj2 (String.eqb_neq k k')) by done.
  - by rewrite IH.
Qed.

(** Two names with different lower-case forms are different attributes of
    an element, whatever its namespace. *)
Lemma attr_key_ne ns a b : lower a <> lower b -> attr_key ns a <> attr_key ns b.
Proof. destruct ns; simpl; [done|]. by intros Hne ->. Qed.

Lemma getAttribute_run h e n ns ln attrs name :
  h !! e = Some n -> kind n = Element ns ln attrs ->
  getAttribute (Some e) name h = Val (attr_get (attr_key ns name) attrs) h.
Proof.
  intros He Hk. unfold getAttribute, Dom.getAttribute, and_then, node.
  by rewrite He, Hk.
Qed.

Lemma setAttribute_run h e n ns ln attrs name value :
  h !! e = Some n -> kind n = Element ns ln attrs ->
  valid_attribute_name name = true ->
  setAttribute (Some e) name value h
  = Val tt (<[e := with_kind
                    (Element ns ln
                       (attr_set (attr_key ns name) (toString value) attrs))
                    n]> h).
Proof.
  intros He Hk Hv. unfold setAttribute, Dom.setAttribute, and_then, node.
  by rewrite He, Hk, Hv.
Qed.

Lemma removeAttribute_one h e n ns ln attrs name :
  h !! e = Some n -> kind n = Element ns ln attrs ->
  Dom.removeAttribute e name h
  = Val tt (<[e := with_kind
                    (Element ns ln (attr_remove (attr_key ns name) attrs))
                    n]> h).
Proof.
  intros He Hk. unfold Dom.removeAttribute, and_then, node.
  by rewrite He, Hk.
Qed.

(** X1. On an element, [setAttribute(elm, name, value)] with a valid
    attribute name and a value that is a string, a boolean, [null],
    [undefined] or a safe integer returns, and [getAttribute(elm, name)]
    then gives the value converted to a string; an attribute of another name (up to ASCII
    case) reads as before, the element keeps its parent and children, and
    no other node changes. *)
Theorem setAttribute_then_getAttribute :
  forall (h : Heap) (e : nat) (n : Node) (name : string) (value : Value),
    h !! e = Some n -> is_element n = true ->
    valid_attribute_name name = true -> safe_value value ->
    exists h' n',
      setAttribute (Some e) name value h = Val tt h'
      /\ getAttribute (Some e) name h' = Val (Some (toString value)) h'
      /\ (forall other, lower other <> lower name ->
            exists r, getAttribute (Some e) other h = Val r h
                      /\ getAttribute (Some e) other h' = Val r h')
      /\ h' !! e = Some n'
      /\ parent n' = parent n /\ children n' = children n
      /\ (forall j, j <> e -> h' !! j = h !! j).
Proof.
  intros h e n name value He Hel Hv _.
  unfold is_element in Hel.
  destruct (kind n) as [ns ln attrs|] eqn:Hk; [|done].
  eexists _, _. split; [by eapply setAttribute_run|].
  pose proof (lookup_insert_here h e n
                (with_kind (Element ns ln
                   (attr_set (attr_key ns name) (toString value) attrs)) n)
                He) as He'.
  split.
  { erewrite getAttribute_run; [|exact He'|apply kind_with_kind].
    by rewrite attr_get_set. }
  split.
  { intros other Hne. eexists. split; [by eapply getAttribute_run|].
    erewrite getAttribute_run; [|exact He'|apply kind_with_kind].
    rewrite attr_get_set_ne; [done|]. by apply attr_key_ne. }
  split; [exact He'|]. split; [done|]. split; [done|].
  intros j Hj. by rewrite list_lookup_insert_ne.
Qed.

(** A [div] given a [title]. *)
Lemma setAttribute_then_getAttribute_witness :
  exists h' n',
    setAttribute (Some 0) "Title" (VNum 7)
      [mkNode (Element HTML "div" [("id", "x")]) None [] None] = Val tt h'
    /\ getAttribute (Some 0) "Title" h' = Val (Some "7") h'
    /\ (forall other, lower other <> lower "Title" ->
          exists r,
            getAttribute (Some 0) other
              [mkNode (Element HTML "div" [("id", "x")]) None [] None]
            = Val r [mkNode (Element HTML "div" [("id", "x")]) None [] None]
            /\ getAttribute (Some 0) other h' = Val r h')
    /\ h' !! 0 = Some n'
    /\ parent n' = None /\ children n' = []
    /\ (forall j, j <> 0 ->
          h' !! j
          = [mkNode (Element HTML "div" [("id", "x")]) None [] None] !! j).
Proof.
  apply (setAttribute_then_getAttribute
           [mkNode (Element HTML "div" [("id", "x")]) None [] None] 0
           (mkNode (Element HTML "div" [("id", "x")]) None [] None)
           "Title" (VNum 7)); first [reflexivity | by vm_compute].
Defined.

Lemma removeAttribute_names (e : nat) (names : list string) :
  forall (h : Heap) n ns ln attrs,
    h !! e = Some n -> kind n = Element ns ln attrs ->
    forEach names (fun name => Dom.removeAttribute e name) h
    = Val tt
        (<[e := with_kind
                  (Element ns ln
                     (foldl (fun l name => attr_remove (attr_key ns name) l)
                        attrs names))
                  n]> h).
Proof.
  induction names as [|name names IH]; intros h n ns ln attrs He Hk.
  - simpl. unfold ret. f_equal. rewrite list_insert_id; [done|].
    rewrite He. f_equal. destruct n. simpl in *. by subst.
  - cbn [forEach]. unfold and_then.
    rewrite (removeAttribute_one h e n ns ln attrs) by done.
    erewrite IH; [|by eapply lookup_insert_here|apply kind_with_kind].
    rewrite list_insert_insert_eq. done.
Qed.

Lemma attr_get_removed ns attrs names name :
  name ∈ names ->
  attr_get (attr_key ns name)
    (foldl (fun l name => attr_remove (attr_key ns name) l) attrs names)
  = None.
Proof.
  revert attrs. induction names as [|x names IH]; intros attrs Hin.
  - by apply elem_of_nil in Hin.
  - simpl. destruct (decide (name ∈ names)) as [Hn|Hn]; [by apply IH|].
    apply elem_of_cons in Hin as [->|Hin]; [|done].
    clear IH Hn. revert attrs.
    induction names as [|y names IH]; intros attrs; simpl.
    + apply attr_get_remove.
    + destruct (decide (attr_key ns y = attr_key ns x)) as [Heq|Hne].
      * rewrite Heq. 
        assert (attr_remove (attr_key ns x) (attr_remove (attr_key ns x) attrs)
                = attr_remove (attr_key ns x) attrs) as ->; [|apply IH].
        unfold attr_remove. induction attrs as [|[k v] l IHl]; simpl; [done|].
        destruct (String.eqb k (attr_key ns x)) eqn:Hkx; simpl; [done|].
        by rewrite Hkx, IHl.
      * assert (attr_remove (attr_key ns y) (attr_remove (attr_key ns x) attrs)
                = attr_remove (attr_key ns x) (attr_remove (attr_key ns y) attrs))
          as ->; [|apply IH].
        unfold attr_remove. induction attrs as [|[k v] l IHl]; simpl; [done|].
        destruct (String.eqb k (attr_key ns x)) eqn:Hkx,
                 (String.eqb k (attr_key ns y)) eqn:Hky; simpl;
          rewrite ?Hkx, ?Hky; simpl; by rewrite ?IHl.
Qed.

Lemma attr_get_kept ns attrs names other :
  (forall name, name ∈ names -> lower other <> lower name) ->
  attr_get (attr_key ns other)
    (foldl (fun l name => attr_remove (attr_key ns name) l) attrs names)
  = attr_get (attr_key ns other) attrs.
Proof.
  revert attrs. induction names as [|x names IH]; intros attrs Hne; [done|].
  simpl. rewrite IH by (intros name Hin; apply Hne; by right).
  apply attr_get_remove_ne. apply attr_key_ne. apply Hne. by left.
Qed.

(** X2. On an element, [removeAttribute(elm, names)] -- one name or an array
    of names -- always returns, whether the attributes exist or not;
    afterwards [getAttribute] gives null for each of the names, an
    attribute of any other name (up to ASCII case) reads as before, and no
    other node changes. *)
Theorem removeAttribute_clears_every_name :
  forall (h : Heap) (e : nat) (n : Node) (names : OneOrMany string),
    h !! e = Some n -> is_element n = true ->
    exists h',
      removeAttribute (Some e) names h = Val tt h'
      /\ (forall name, name ∈ toArray names ->
            getAttribute (Some e) name h' = Val None h')
      /\ (forall other,
            (forall name, name ∈ toArray names -> lower other <> lower name) ->
            exists r, getAttribute (Some e) other h = Val r h
                      /\ getAttribute (Some e) other h' = Val r h')
      /\ (forall j, j <> e -> h' !! j = h !! j).
Proof.
  intros h e n names He Hel.
  unfold is_element in Hel.
  destruct (kind n) as [ns ln attrs|] eqn:Hk; [|done].
  eexists. split.
  { unfold removeAttribute. by eapply removeAttribute_names. }
  set (n' := with_kind _ n).
  assert (<[e := n']> h !! e = Some n') as He' by by eapply lookup_insert_here.
  split.
  { intros name Hin.
    erewrite getAttribute_run; [|exact He'|apply kind_with_kind].
    by rewrite attr_get_removed. }
  split.
  { intros other Hne. eexists. split; [by eapply getAttribute_run|].
    erewrite getAttribute_run; [|exact He'|apply kind_with_kind].
    by rewrite attr_get_kept. }
  intros j Hj. by rewrite list_lookup_insert_ne.
Qed.

(** An [input] losing two of its three attributes. *)
Lemma removeAttribute_clears_every_name_witness :
  exists h',
    removeAttribute (Some 0) (Many ["disabled"; "Hidden"])
      [mkNode (Element HTML "input"
                 [("disabled", ""); ("id", "x"); ("hidden", "")])
         None [] None] = Val tt h'
    /\ (forall name, name ∈ ["disabled"; "Hidden"] ->
          getAttribute (Some 0) name h' = Val None h')
    /\ (forall other,
          (forall name, name ∈ ["disabled"; "Hidden"] ->
             lower other <> lower name) ->
          exists r,
            getAttribute (Some 0) other
              [mkNode (Element HTML "input"
                         [("disabled", ""); ("id", "x"); ("hidden", "")])
                 None [] None]
            = Val r
                [mkNode (Element HTML "input"
                           [("disabled", ""); ("id", "x"); ("hidden", "")])
                   None [] None]
            /\ getAttribute (Some 0) other h' = Val r h')
    /\ (forall j, j <> 0 ->
          h' !! j
          = [mkNode (Element HTML "input"
                       [("disabled", ""); ("id", "x"); ("hidden", "")])
               None [] None] !! j).
Proof.
  apply (removeAttribute_clears_every_name
           [mkNode (Element HTML "input"
                      [("disabled", ""); ("id", "x"); ("hidden", "")])
              None [] None] 0
           (mkNode (Element HTML "input"
                      [("disabled", ""); ("id", "x"); ("hidden", "")])
              None [] None)
           (Many ["disabled"; "Hidden"])); reflexivity.
Defined.

Lemma split_from_spaceless a : forall acc rest,
  spaceless a = true ->
  split_from " " acc (a ++ String " " rest)
  = (acc ++ a)%string :: split_from " " "" rest.
Proof.
  unfold spaceless. induction a as [|c a IH]; intros acc rest Ha.
  - rewrite append_nil_l, append_nil_r. reflexivity.
  - simpl in Ha. apply andb_true_iff in Ha as [Hc Ha].
    rewrite append_cons. simpl. apply negb_true_iff in Hc. rewrite Hc.
    rewrite IH by done. by rewrite append_assoc.
Qed.

Lemma split_from_whole a : forall acc,
  spaceless a = true -> split_from " " acc a = [(acc ++ a)%string].
Proof.
  unfold spaceless. induction a as [|c a IH]; intros acc Ha.
  - by rewrite append_nil_r.
  - simpl in Ha. apply andb_true_iff in Ha as [Hc Ha].
    simpl. apply negb_true_iff in Hc. rewrite Hc.
    rewrite IH by done. by rewrite append_assoc.
Qed.

Lemma first_part_cut a rest :
  spaceless a = true -> first_part (a ++ String " " rest) = a.
Proof.
  intros Ha. unfold first_part, split.
  rewrite split_from_spaceless by done. apply append_nil_l.
Qed.

Lemma first_part_whole a : spaceless a = true -> first_part a = a.
Proof.
  intros Ha. unfold first_part, split.
  rewrite split_from_whole by done. apply append_nil_l.
Qed.

(** X3. [find] hands [querySelector] only what precedes the first space
    of the selector: with a descendant selector such as [a b] it looks for
    [a] alone, whatever follows the space. *)
Theorem find_ignores_what_follows_a_space :
  forall (selector_matches : string -> option (Heap -> nat -> bool))
         (h : Heap) (elm : Ref) (a rest : string),
    a <> "" -> spaceless a = true ->
    find selector_matches elm (Some (a ++ String " " rest)%string) h
    = find selector_matches elm (Some a) h.
Proof.
  intros sm h elm a rest Hne Ha. unfold find.
  destruct elm as [e|]; [|done].
  rewrite first_part_cut, first_part_whole by done.
  rewrite (eqb_empty_false a) by done.
  destruct a as [|c a]; [done|]. by rewrite append_cons.
Qed.

(** The selector [.track li] is read as [.track]. *)
Lemma find_ignores_what_follows_a_space_witness :
  find (fun _ => None) (Some 0) (Some (".track" ++ String " " "li")%string)
    [mkNode (Element HTML "div" []) None [] None]
  = find (fun _ => None) (Some 0) (Some ".track")
      [mkNode (Element HTML "div" []) None [] None].
Proof.
  apply (find_ignores_what_follows_a_space (fun _ => None)
           [mkNode (Element HTML "div" []) None [] None] (Some 0)
           ".track" "li"); [discriminate | reflexivity].
Defined.

Lemma filterM_hasClass t (h : Heap) : forall l,
  (forall c, c ∈ l -> exists n, h !! c = Some n /\ is_element n = true) ->
  filterM (fun c => hasClass (Some c) t) l h
  = Val (List.filter
           (fun c => match h !! c with
                     | Some n => bool_decide (t ∈ tokens_of n)
                     | None => false
                     end) l) h.
Proof.
  induction l as [|c l IH]; intros Hl; [done|].
  destruct (Hl c) as (n & Hc & Hel); [by left|].
  cbn [filterM]. unfold and_then.
  rewrite (hasClass_spec h c n) by done.
  rewrite IH by (intros x Hx; apply Hl; by right).
  simpl. rewrite Hc. unfold ret. by destruct (bool_decide _).
Qed.

Lemma element_ids_elements (h : Heap) l c :
  c ∈ element_ids h l -> exists n, h !! c = Some n /\ is_element n = true.
Proof.
  unfold element_ids. rewrite list_elem_of_In, filter_In.
  intros [_ Hc]. destruct (h !! c) as [n|]; [|done]. by exists n.
Qed.

Lemma head_filter_split {A} (P : A -> bool) (l : list A) :
  match head (List.filter P l) with
  | Some c =>
      exists pre post,
        l = pre ++ c :: post /\ P c = true /\ forall x, x ∈ pre -> P x = false
  | None => forall x, x ∈ l -> P x = false
  end.
Proof.
  induction l as [|y l IH]; simpl.
  - intros x Hx. by apply elem_of_nil in Hx.
  - destruct (P y) eqn:Hy; simpl.
    + exists [], l. split_and!; [done|done|].
      intros x Hx. by apply elem_of_nil in Hx.
    + destruct (head (List.filter P l)) as [c|].
      * destruct IH as (pre & post & -> & Hc & Hpre).
        exists (y :: pre), post. split_and!; [done|done|].
        intros x [->|Hx]%elem_of_cons; [done|by apply Hpre].
      * intros x [->|Hx]%elem_of_cons; [done|by apply IH].
Qed.

(** X4. On an element, [child(parent, className)] returns, without
    changing anything, the first of the parent's element children that has
    the class named by the first word of [className], and null when none
    has it. *)
Theorem child_finds_the_first_with_the_class :
  forall (h : Heap) (p : nat) (n : Node) (className : string),
    h !! p = Some n -> is_element n = true ->
    exists r,
      child (Some p) className h = Val r h
      /\ match r with
         | Some c =>
             exists pre post,
               element_ids h (children n) = pre ++ c :: post
               /\ hasClass (Some c) (first_part className) h = Val true h
               /\ forall x, x ∈ pre ->
                    hasClass (Some x) (first_part className) h = Val false h
         | None =>
             forall x, x ∈ element_ids h (children n) ->
               hasClass (Some x) (first_part className) h = Val false h
         end.
Proof.
  intros h p n className Hp Hel.
  eexists. split.
  { unfold child, element_children, and_then, node, get_state, values.
    rewrite Hp, Hel. unfold ret at 1.
    rewrite filterM_hasClass by apply element_ids_elements. reflexivity. }
  set (P := fun c : nat => match h !! c with
                           | Some n0 => bool_decide (_ ∈ tokens_of n0)
                           | None => false
                           end).
  pose proof (head_filter_split P (element_ids h (children n))) as Hsplit.
  assert (Hhas : forall x, x ∈ element_ids h (children n) ->
            hasClass (Some x) (first_part className) h = Val (P x) h).
  { intros x Hx. destruct (element_ids_elements h _ x Hx) as (xn & Hxn & Hxel).
    rewrite (hasClass_spec h x xn) by done. unfold P. by rewrite Hxn. }
  destruct (head (List.filter P _)) as [c|].
  - destruct Hsplit as (pre & post & Heq & Hc & Hpre).
    exists pre, post. split; [done|]. rewrite Heq in Hhas. split.
    + rewrite Hhas, Hc; [done|]. apply elem_of_app. right. by left.
    + intros x Hx. rewrite Hhas, Hpre; [done|done|].
      apply elem_of_app. by left.
  - intros x Hx. by rewrite Hhas, Hsplit.
Qed.

(** *** What [unlink] and [link] change *)

Lemma parent_of_children_alter (f : list nat -> list nat) i (h : Heap) j :
  parent_of (alter (fun n => with_children (f (children n)) n) i h) j
  = parent_of h j.
Proof.
  unfold parent_of. rewrite list_lookup_alter. case_decide; [subst|done].
  by destruct (h !! j).
Qed.

Lemma children_of_children_alter (f : list nat -> list nat) i (h : Heap) j :
  children_of (alter (fun n => with_children (f (children n)) n) i h) j
  = (if decide (i = j) then f else id) <$> children_of h j.
Proof.
  unfold children_of. rewrite list_lookup_alter.
  case_decide; [subst|]; by destruct (h !! j).
Qed.

Lemma kind_children_alter (f : list nat -> list nat) i (h : Heap) j :
  kind <$> alter (fun n => with_children (f (children n)) n) i h !! j
  = kind <$> h !! j.
Proof.
  rewrite list_lookup_alter. case_decide; [subst|done]. by destruct (h !! j).
Qed.

Lemma parent_of_parent_alter p i (h : Heap) j :
  parent_of (alter (with_parent p) i h) j
  = if decide (i = j) then (fun _ => p) <$> parent_of h j else parent_of h j.
Proof.
  unfold parent_of. rewrite list_lookup_alter.
  case_decide; [subst|done]. by destruct (h !! j).
Qed.

Lemma children_of_parent_alter p i (h : Heap) j :
  children_of (alter (with_parent p) i h) j = children_of h j.
Proof.
  unfold children_of. rewrite list_lookup_alter.
  case_decide; [subst|done]. by destruct (h !! j).
Qed.

Lemma kind_parent_alter p i (h : Heap) j :
  kind <$> alter (with_parent p) i h !! j = kind <$> h !! j.
Proof.
  rewrite list_lookup_alter. case_decide; [subst|done]. by destruct (h !! j).
Qed.

Lemma parent_of_unlink (h : Heap) c cn j :
  h !! c = Some cn ->
  parent_of (unlink c h) j = if decide (c = j) then Some None else parent_of h j.
Proof.
  intros Hc. unfold unlink. rewrite Hc.
  destruct (parent cn) as [q|] eqn:Hq.
  - rewrite parent_of_parent_alter, parent_of_children_alter.
    case_decide; [subst|done]. unfold parent_of. by rewrite Hc.
  - case_decide; [subst|done]. unfold parent_of. rewrite Hc. simpl.
    by rewrite Hq.
Qed.

Lemma children_of_unlink (h : Heap) c cn q :
  h !! c = Some cn ->
  children_of (unlink c h) q
  = (if decide (parent cn = Some q) then without c else id) <$> children_of h q.
Proof.
  intros Hc. unfold unlink. rewrite Hc.
  destruct (parent cn) as [q'|] eqn:Hq.
  - rewrite children_of_parent_alter, children_of_children_alter.
    destruct (decide (q' = q)) as [->|Hne].
    + by rewrite decide_True.
    + rewrite decide_False by congruence. done.
  - rewrite decide_False by done. by destruct (children_of h q).
Qed.

Lemma kind_unlink (h : Heap) c j :
  kind <$> unlink c h !! j = kind <$> h !! j.
Proof.
  unfold unlink. destruct (h !! c) as [cn|]; [|done].
  destruct (parent cn); [|done].
  by rewrite kind_parent_alter, kind_children_alter.
Qed.

Lemma parent_of_link p ref i (h : Heap) j :
  parent_of (link p ref i h) j
  = if decide (i = j) then (fun _ => Some p) <$> parent_of h j
    else parent_of h j.
Proof.
  unfold link.
  rewrite (parent_of_parent_alter (Some p)).
  by rewrite (parent_of_children_alter
                (fun l => match ref with
                          | Some r => place_before r i l
                          | None => l ++ [i]
                          end)).
Qed.

Lemma children_of_link p ref i (h : Heap) q :
  children_of (link p ref i h) q
  = (if decide (p = q)
     then fun l => match ref with
                   | Some r => place_before r i l
                   | None => l ++ [i]
                   end
     else id) <$> children_of h q.
Proof.
  unfold link. rewrite children_of_parent_alter.
  by rewrite (children_of_children_alter
                (fun l => match ref with
                          | Some r => place_before r i l
                          | None => l ++ [i]
                          end)).
Qed.

Lemma kind_link p ref i (h : Heap) j :
  kind <$> link p ref i h !! j = kind <$> h !! j.
Proof.
  unfold link. rewrite kind_parent_alter.
  by rewrite (kind_children_alter
                (fun l => match ref with
                          | Some r => place_before r i l
                          | None => l ++ [i]
                          end)).
Qed.

(** What moving [c] under [p] -- before [ref], or last -- leaves. *)
Lemma moved (h : Heap) p ref c pn cn :
  h !! p = Some pn -> h !! c = Some cn ->
  let l := fun q => if decide (parent cn = Some q) then without c else id in
  let h' := link p ref c (unlink c h) in
  parent_of h' c = Some (Some p)
  /\ children_of h' p
     = Some (match ref with
             | Some r => place_before r c (l p (children pn))
             | None => l p (children pn) ++ [c]
             end)
  /\ (forall q, q <> p -> children_of h' q = l q <$> children_of h q)
  /\ (forall j, j <> c -> parent_of h' j = parent_of h j)
  /\ (forall j, kind <$> h' !! j = kind <$> h !! j)
  /\ List.length h' = List.length h.
Proof.
  intros Hp Hc l h'. unfold h'. split_and!.
  - rewrite parent_of_link, decide_True by done.
    rewrite (parent_of_unlink h c cn) by done. by rewrite decide_True.
  - rewrite children_of_link, decide_True by done.
    rewrite (children_of_unlink h c cn) by done.
    unfold children_of. rewrite Hp. simpl. by destruct ref.
  - intros q Hq. rewrite children_of_link, decide_False by done.
    rewrite (children_of_unlink h c cn) by done.
    by destruct (children_of h q).
  - intros j Hj. rewrite parent_of_link, decide_False by done.
    rewrite (parent_of_unlink h c cn) by done. by rewrite decide_False.
  - intros j. by rewrite kind_link, kind_unlink.
  - by rewrite length_link, length_unlink.
Qed.

(** X5. [append(parent, child)] on an element [parent] that is not inside
    [child] returns; [child] is then the last child of [parent], taken out
    of the children of the parent it had; no other node changes parent, no
    node is created or changes kind. *)
Theorem append_moves_the_child_to_the_end :
  forall (h : Heap) (p c : nat) (pn cn : Node),
    h !! p = Some pn -> is_element pn = true -> h !! c = Some cn ->
    inclusive_ancestor (List.length h) h c p = false ->
    let l := fun q => if decide (parent cn = Some q) then without c else id in
    exists h',
      append (Some p) (Some c) h = Val tt h'
      /\ parent_of h' c = Some (Some p)
      /\ children_of h' p = Some (l p (children pn) ++ [c])
      /\ (forall q, q <> p -> children_of h' q = l q <$> children_of h q)
      /\ (forall j, j <> c -> parent_of h' j = parent_of h j)
      /\ (forall j, kind <$> h' !! j = kind <$> h !! j)
      /\ List.length h' = List.length h.
Proof.
  intros h p c pn cn Hp Hel Hc Hanc l.
  exists (link p None c (unlink c h)). split.
  - unfold append, appendChild, insertBefore, and_then, node, get_state.
    rewrite Hp. cbv beta iota. rewrite Hc. cbv beta iota.
    by rewrite Hel, Hanc.
  - exact (moved h p None c pn cn Hp Hc).
Qed.

(** The second child of a root moved into the first one. *)
Lemma append_moves_the_child_to_the_end_witness :
  let h := [Sample.div None [1; 2]; Sample.div (Some 0) [];
            Sample.div (Some 0) []] in
  let l := fun q => if decide (Some 0 = Some q) then without 2 else id in
  exists h',
    append (Some 1) (Some 2) h = Val tt h'
    /\ parent_of h' 2 = Some (Some 1)
    /\ children_of h' 1 = Some (l 1 [] ++ [2])
    /\ (forall q, q <> 1 -> children_of h' q = l q <$> children_of h q)
    /\ (forall j, j <> 2 -> parent_of h' j = parent_of h j)
    /\ (forall j, kind <$> h' !! j = kind <$> h !! j)
    /\ List.length h' = List.length h.
Proof.
  intros h.
  apply (append_moves_the_child_to_the_end h 1 2
           (Sample.div (Some 0) []) (Sample.div (Some 0) []));
    reflexivity.
Defined.

Lemma place_before_split f e pre post :
  f ∉ pre -> place_before f e (pre ++ f :: post) = pre ++ e :: f :: post.
Proof.
  induction pre as [|x pre IH]; intros Hf; simpl.
  - by rewrite Nat.eqb_refl.
  - apply not_elem_of_cons in Hf as [Hne Hf].
    rewrite (proj2 (Nat.eqb_neq x f)) by done. by rewrite IH.
Qed.

Lemma without_app e l1 l2 : without e (l1 ++ l2) = without e l1 ++ without e l2.
Proof. unfold without. apply List.filter_app. Qed.

Lemma without_subseteq e l x : x ∈ without e l -> x ∈ l.
Proof.
  unfold without. rewrite !list_elem_of_In, filter_In. by intros [? _].
Qed.

(** X6. [before(elm, ref)], for a [ref] that is a child of an element and
    an [elm] other than [ref] that does not contain that element, returns
    and puts [elm] immediately before [ref] among the children of [ref]'s
    parent, after taking it out of the children of the parent it had. *)
Theorem before_puts_the_element_in_front :
  forall (h : Heap) (e f r : nat) (en fn rn : Node) (pre post : list nat),
    h !! f = Some fn -> parent fn = Some r ->
    h !! r = Some rn -> is_element rn = true ->
    children rn = pre ++ f :: post -> f ∉ pre ->
    h !! e = Some en -> e <> f ->
    inclusive_ancestor (List.length h) h e r = false ->
    let l := fun q => if decide (parent en = Some q) then without e else id in
    exists h',
      before (Some e) (Some f) h = Val tt h'
      /\ parent_of h' e = Some (Some r)
      /\ children_of h' r = Some (l r pre ++ e :: f :: l r post)
      /\ (forall q, q <> r -> children_of h' q = l q <$> children_of h q)
      /\ (forall j, j <> e -> parent_of h' j = parent_of h j)
      /\ (forall j, kind <$> h' !! j = kind <$> h !! j)
      /\ List.length h' = List.length h.
Proof.
  intros h e f r en fn rn pre post Hf Hpf Hr Hel Hkids Hpre He Hef Hanc l.
  exists (link r (Some f) e (unlink e h)). split.
  - unfold before, parentElement, insertBefore, and_then, node, get_state, ret.
    rewrite Hf. cbv beta iota. rewrite Hpf, Hr. cbv beta iota.
    rewrite He. cbv beta iota. rewrite Hel, Hanc. cbn [negb orb].
    cbv beta iota. rewrite Hf. cbv beta iota. rewrite Hpf.
    rewrite bool_decide_eq_true_2 by done.
    by rewrite (proj2 (Nat.eqb_neq f e)) by done.
  - destruct (moved h r (Some f) e rn en Hr He)
      as (H1 & H2 & H3 & H4 & H5 & H6).
    split_and!; try done.
    rewrite H2, Hkids. f_equal. unfold l.
    case_decide; simpl.
    + rewrite without_app. unfold without at 2. simpl.
      rewrite (proj2 (Nat.eqb_neq f e)) by done. simpl.
      apply place_before_split. intros Hin. apply Hpre.
      by eapply without_subseteq.
    + by apply place_before_split.
Qed.

(** A detached [div] put before the second child of a root. *)
Lemma before_puts_the_element_in_front_witness :
  let h := [Sample.div None [1; 2]; Sample.div (Some 0) [];
            Sample.div (Some 0) []; Sample.div None []] in
  let l := fun q => if decide (@None nat = Some q) then without 3 else id in
  exists h',
    before (Some 3) (Some 2) h = Val tt h'
    /\ parent_of h' 3 = Some (Some 0)
    /\ children_of h' 0 = Some (l 0 [1] ++ 3 :: 2 :: l 0 [])
    /\ (forall q, q <> 0 -> children_of h' q = l q <$> children_of h q)
    /\ (forall j, j <> 3 -> parent_of h' j = parent_of h j)
    /\ (forall j, kind <$> h' !! j = kind <$> h !! j)
    /\ List.length h' = List.length h.
Proof.
  intros h.
  apply (before_puts_the_element_in_front h 3 2 0
           (Sample.div None []) (Sample.div (Some 0) [])
           (Sample.div None [1; 2]) [1] []);
    try reflexivity; [|lia].
  intros Hin. apply list_elem_of_singleton in Hin. lia.
Defined.

(** X7. [before(elm, ref)] does nothing when [ref] is null or has no
    parent, whatever [elm] is -- where [append] with a null child
    throws. *)
Theorem before_needs_a_reference_with_a_parent :
  forall (h : Heap) (elm : Ref),
    before elm None h = Val tt h
    /\ (forall f fn, h !! f = Some fn -> parent fn = None ->
          before elm (Some f) h = Val tt h)
    /\ (forall p, append (Some p) None h = Throw TypeError h).
Proof.
  intros h elm. split_and!.
  - by destruct elm.
  - intros f fn Hf Hp. destruct elm as [e|]; [|done].
    unfold before, parentElement, and_then, node, ret. by rewrite Hf, Hp.
  - done.
Qed.

Lemma remove_entry (h : Heap) e en p :
  h !! e = Some en -> parent en = Some p ->
  (let* q := parentElement e in
   match q with
   | Some q => removeChild q (Some e)
   | None => throw TypeError
   end) h = Val tt (unlink e h).
Proof.
  intros He Hp. unfold parentElement, removeChild, and_then, node, ret.
  rewrite He. cbv beta iota. rewrite Hp, He. cbv beta iota. rewrite Hp.
  by rewrite bool_decide_eq_true_2.
Qed.

Lemma filter_filter_ext {A} (P1 Q P : A -> bool) (l : list A) :
  (forall c, P1 c && Q c = P c) ->
  List.filter P1 (List.filter Q l) = List.filter P l.
Proof.
  intros Hext. induction l as [|x l IH]; [done|]. simpl.
  rewrite <- (Hext x). destruct (Q x); simpl.
  - rewrite andb_true_r. destruct (P1 x); by rewrite IH.
  - by rewrite andb_false_r.
Qed.

Lemma filter_all {A} (P : A -> bool) (l : list A) :
  (forall c, P c = true) -> List.filter P l = l.
Proof.
  intros HP. induction l as [|x l IH]; [done|]. simpl.
  by rewrite HP, IH.
Qed.

Lemma remove_entries (l : list Ref) : forall h : Heap,
  NoDup (omap id l) ->
  Forall (fun elm => match elm with
                     | Some e => exists p, parent_of h e = Some (Some p)
                     | None => True
                     end) l ->
  exists h',
    remove (Many l) h = Val tt h'
    /\ (forall e, Some e ∈ l -> parent_of h' e = Some None)
    /\ (forall j, Some j ∉ l -> parent_of h' j = parent_of h j)
    /\ (forall q, children_of h' q
                  = List.filter (fun c => negb (taken h l q c))
                      <$> children_of h q)
    /\ (forall j, kind <$> h' !! j = kind <$> h !! j)
    /\ List.length h' = List.length h.
Proof.
  unfold remove, toArray.
  induction l as [|[e|] l IH]; intros h Hnd Hatt.
  - exists h. split_and!; try done.
    + intros e He. by apply elem_of_nil in He.
    + intros q. destruct (children_of h q) as [cs|]; [|done]. simpl.
      f_equal. symmetry. by apply filter_all.
  - simpl in Hnd. apply NoDup_cons in Hnd as [Hfresh Hnd].
    apply Forall_cons in Hatt as [(p & Hp) Hatt].
    unfold parent_of in Hp. destruct (h !! e) as [en|] eqn:He; [|done].
    simpl in Hp. injection Hp as Hp.
    assert (Hnot : Some e ∉ l).
    { intros Hin. apply Hfresh. apply list_elem_of_omap. by exists (Some e). }
    destruct (IH (unlink e h) Hnd) as (h' & Hrun & H1 & H2 & H3 & H4 & H5).
    { apply Forall_forall. intros [e'|] Hin; [|done].
      rewrite Forall_forall in Hatt. destruct (Hatt _ Hin) as (p' & Hp').
      exists p'. rewrite (parent_of_unlink h e en) by done.
      rewrite decide_False; [done|]. by intros ->. }
    exists h'. split.
    { cbn [forEach]. unfold and_then at 1.
      rewrite (remove_entry h e en p) by done. exact Hrun. }
    split_and!.
    + intros e' [Heq|Hin]%elem_of_cons; [|by apply H1].
      injection Heq as ->. rewrite H2 by done.
      rewrite (parent_of_unlink h e en) by done. by rewrite decide_True.
    + intros j Hj. apply not_elem_of_cons in Hj as [Hne Hj].
      rewrite H2 by done. rewrite (parent_of_unlink h e en) by done.
      rewrite decide_False; [done|]. congruence.
    + intros q. rewrite H3, (children_of_unlink h e en) by done.
      destruct (children_of h q) as [cs|]; [|done]. simpl. f_equal.
      case_decide as Hq; simpl.
      * unfold without. apply filter_filter_ext. intros c. unfold taken.
        destruct (Nat.eqb_spec c e) as [->|Hce]; simpl.
        -- rewrite andb_false_r. symmetry. apply negb_false_iff.
           apply bool_decide_eq_true. split; [by left|].
           unfold parent_of. rewrite He. simpl. by rewrite Hq.
        -- rewrite andb_true_r. f_equal. apply bool_decide_ext.
           rewrite (parent_of_unlink h e en) by done.
           rewrite decide_False by done.
           rewrite elem_of_cons. split; [tauto|].
           intros [[Heq|Hin] Hpar]; [congruence|done].
      * apply List.filter_ext. intros c. unfold taken. f_equal.
        apply bool_decide_ext.
        rewrite (parent_of_unlink h e en) by done.
        destruct (decide (e = c)) as [<-|Hce].
        -- split; [by intros [Hin _]|].
           intros [_ Hpar]. unfold parent_of in Hpar. rewrite He in Hpar.
           simpl in Hpar. congruence.
        -- rewrite elem_of_cons. split; [tauto|].
           intros [[Heq|Hin] Hpar]; [congruence|done].
    + intros j. by rewrite H4, kind_unlink.
    + by rewrite H5, length_unlink.
  - simpl in Hnd. apply Forall_cons in Hatt as [_ Hatt].
    destruct (IH h Hnd Hatt) as (h' & Hrun & H1 & H2 & H3 & H4 & H5).
    exists h'. split; [exact Hrun|]. split_and!; try done.
    + intros e [Heq|Hin]%elem_of_cons; [done|by apply H1].
    + intros j Hj. apply not_elem_of_cons in Hj as [_ Hj]. by apply H2.
    + intros q. rewrite H3. destruct (children_of h q) as [cs|]; [|done].
      simpl. f_equal. apply List.filter_ext. intros c. unfold taken. f_equal.
      apply bool_decide_ext. rewrite elem_of_cons.
      split; [tauto|]. intros [[Heq|Hin] Hpar]; [done|done].
Qed.

(** X8. [remove(elms)], for one element or an array whose non-null entries
    are distinct and each have a parent, returns and detaches every entry:
    each is left without a parent and is taken out of the children of the
    parent it had; null entries are passed over; no other node changes
    parent, no node is destroyed or changes kind. *)
Theorem remove_detaches_every_entry :
  forall (h : Heap) (elms : OneOrMany Ref),
    NoDup (omap id (toArray elms)) ->
    Forall (fun elm => match elm with
                       | Some e => exists p, parent_of h e = Some (Some p)
                       | None => True
                       end) (toArray elms) ->
    exists h',
      remove elms h = Val tt h'
      /\ (forall e, Some e ∈ toArray elms -> parent_of h' e = Some None)
      /\ (forall j, Some j ∉ toArray elms -> parent_of h' j = parent_of h j)
      /\ (forall q, children_of h' q
                    = List.filter (fun c => negb (taken h (toArray elms) q c))
                        <$> children_of h q)
      /\ (forall j, kind <$> h' !! j = kind <$> h !! j)
      /\ List.length h' = List.length h.
Proof.
  intros h elms Hnd Hatt.
  destruct (remove_entries (toArray elms) h Hnd Hatt) as (h' & Hrun & Hrest).
  exists h'. split; [|exact Hrest]. by destruct elms.
Qed.

(** Two of the three children of a root, and a null between them. *)
Lemma remove_detaches_every_entry_witness :
  let h := [Sample.div None [1; 2; 3]; Sample.div (Some 0) [];
            Sample.div (Some 0) []; Sample.div (Some 0) []] in
  let elms := Many [Some 3; None; Some 1] in
  exists h',
    remove elms h = Val tt h'
    /\ (forall e, Some e ∈ toArray elms -> parent_of h' e = Some None)
    /\ (forall j, Some j ∉ toArray elms -> parent_of h' j = parent_of h j)
    /\ (forall q, children_of h' q
                  = List.filter (fun c => negb (taken h (toArray elms) q c))
                      <$> children_of h q)
    /\ (forall j, kind <$> h' !! j = kind <$> h !! j)
    /\ List.length h' = List.length h.
Proof.
  intros h elms.
  apply (remove_detaches_every_entry h elms).
  - apply (bool_decide_unpack _). vm_compute. reflexivity.
  - repeat constructor; by exists 0.
Defined.

(** X9. [remove] does not test [elm.parentElement]: at the first entry
    that has no parent it throws a TypeError and leaves the entries after
    it where they are; an element listed twice is detached at its first
    entry and makes [remove] throw at the second. *)
Theorem remove_throws_at_a_parentless_entry :
  forall (h : Heap) (e : nat) (en : Node) (rest : list Ref),
    h !! e = Some en ->
    (parent en = None ->
       remove (One (Some e)) h = Throw TypeError h
       /\ remove (Many (Some e :: rest)) h = Throw TypeError h)
    /\ (forall p, parent en = Some p ->
          exists h',
            remove (Many (Some e :: Some e :: rest)) h = Throw TypeError h'
            /\ parent_of h' e = Some None
            /\ (forall j, j <> e -> parent_of h' j = parent_of h j)).
Proof.
  intros h e en rest He. split.
  - intros Hp.
    assert (Hone : (let* q := parentElement e in
                    match q with
                    | Some q => removeChild q (Some e)
                    | None => throw TypeError
                    end) h = Throw TypeError h).
    { unfold parentElement, and_then, node, ret. rewrite He. cbv beta iota.
      by rewrite Hp. }
    split; unfold remove, toArray; cbn [forEach]; unfold and_then at 1;
      by rewrite Hone.
  - intros p Hp. exists (unlink e h).
    assert (Hpar : parent_of (unlink e h) e = Some None).
    { rewrite (parent_of_unlink h e en) by done. by rewrite decide_True. }
    split_and!; [|done|].
    + unfold remove, toArray. cbn [forEach].
      unfold and_then at 1. rewrite (remove_entry h e en p) by done.
      unfold parent_of in Hpar.
      destruct (unlink e h !! e) as [en'|] eqn:He'; [|done].
      simpl in Hpar. injection Hpar as Hpar.
      unfold and_then at 1.
      assert (Hone : (let* q := parentElement e in
                      match q with
                      | Some q => removeChild q (Some e)
                      | None => throw TypeError
                      end) (unlink e h) = Throw TypeError (unlink e h)).
      { unfold parentElement, and_then, node, ret. rewrite He'.
        cbv beta iota. by rewrite Hpar. }
      by rewrite Hone.
    + intros j Hj. rewrite (parent_of_unlink h e en) by done.
      by rewrite decide_False.
Qed.

Lemma remove_throws_at_a_parentless_entry_witness :
  let h := [Sample.div None [1]; Sample.div (Some 0) []] in
  (parent (Sample.div None [1]) = None ->
     remove (One (Some 0)) h = Throw TypeError h
     /\ remove (Many [Some 0; Some 1]) h = Throw TypeError h)
  /\ (forall p, parent (Sample.div None [1]) = Some p ->
        exists h',
          remove (Many [Some 0; Some 0; Some 1]) h = Throw TypeError h'
          /\ parent_of h' 0 = Some None
          /\ (forall j, j <> 0 -> parent_of h' j = parent_of h j)).
Proof.
  intros h.
  apply (remove_throws_at_a_parentless_entry h 0 (Sample.div None [1])
           [Some 1]).
  reflexivity.
Defined.

(** *** Class lists *)

Lemma elem_of_filter_bool {A} (P : A -> bool) (l : list A) x :
  x ∈ List.filter P l <-> x ∈ l /\ P x = true.
Proof. by rewrite !list_elem_of_In, filter_In. Qed.

Lemma addClass_names (e : nat) (names : list string) :
  forall (h : Heap) (n : Node),
    h !! e = Some n -> is_element n = true ->
    Forall (fun s => s = "" \/ token s) names ->
    exists n',
      addOrRemoveClasses (Some e) (Many names) false h
      = Val tt (<[e := n']> h)
      /\ is_element n' = true
      /\ tokens_of n'
         = foldl ordered_append (tokens_of n) (List.filter named names).
Proof.
  unfold addOrRemoveClasses, toArray.
  induction names as [|t names IH]; intros h n He Hel Hnames.
  - exists n. split_and!; [|done|done].
    simpl. unfold ret. by rewrite list_insert_id.
  - apply Forall_cons in Hnames as [Ht Hnames]. cbn [forEach].
    destruct Ht as [->|Ht].
    + destruct (IH h n He Hel Hnames) as (n' & Hrun & Hel' & Htok).
      exists n'. split_and!; [|done|done].
      unfold and_then at 1. simpl. exact Hrun.
    + destruct (classList_add_spec h e n t He Hel Ht) as (n1 & Hadd & Hel1 & Ht1).
      destruct (IH (<[e := n1]> h) n1) as (n' & Hrun & Hel' & Htok);
        [by eapply lookup_insert_here|done|done|].
      exists n'. split_and!; [|done|].
      * unfold and_then at 1.
        rewrite (eqb_empty_false t) by apply Ht. rewrite Hadd.
        rewrite Hrun. by rewrite list_insert_insert_eq.
      * rewrite Htok, Ht1. simpl. unfold named at 2.
        by rewrite (eqb_empty_false t) by apply Ht.
Qed.

Lemma removeClass_names (e : nat) (names : list string) :
  forall (h : Heap) (n : Node),
    h !! e = Some n -> is_element n = true ->
    Forall (fun s => s = "" \/ token s) names ->
    exists h' n',
      addOrRemoveClasses (Some e) (Many names) true h = Val tt h'
      /\ h' !! e = Some n'
      /\ is_element n' = true
      /\ tokens_of n'
         = List.filter (fun x => bool_decide (x ∉ names)) (tokens_of n).
Proof.
  unfold addOrRemoveClasses, toArray.
  induction names as [|t names IH]; intros h n He Hel Hnames.
  - exists h, n. split_and!; try done.
    symmetry. apply filter_all. intros x. apply bool_decide_eq_true.
    apply not_elem_of_nil.
  - apply Forall_cons in Hnames as [Ht Hnames]. cbn [forEach].
    destruct Ht as [->|Ht].
    + destruct (IH h n He Hel Hnames) as (h' & n' & Hrun & He' & Hel' & Htok).
      exists h', n'. split_and!; try done.
      rewrite Htok. apply List.filter_ext_in. intros x Hx.
      apply bool_decide_ext. rewrite not_elem_of_cons.
      split; [|tauto]. intros Hn. split; [|done]. intros ->.
      apply list_elem_of_In in Hx.
      pose proof (tokens_of_tokens n) as Htk.
      rewrite Forall_forall in Htk. by destruct (Htk _ Hx).
    + destruct (classList_remove_spec h e n t He Hel Ht)
        as (h1 & n1 & Hrem & He1 & Hel1 & Ht1).
      destruct (IH h1 n1 He1 Hel1 Hnames)
        as (h' & n' & Hrun & He' & Hel' & Htok).
      exists h', n'. split_and!; try done.
      * unfold and_then at 1.
        rewrite (eqb_empty_false t) by apply Ht. by rewrite Hrem.
      * rewrite Htok, Ht1. apply filter_filter_ext. intros x.
        destruct (String.eqb_spec x t) as [->|Hne]; simpl.
        -- rewrite andb_false_r. symmetry. apply bool_decide_eq_false.
           intros Hn. apply Hn. by left.
        -- rewrite andb_true_r. apply bool_decide_ext.
           rewrite not_elem_of_cons. tauto.
Qed.

(** X10. [addClass(elm, classes)], for one name or an array of names each
    empty or free of whitespace, returns; the element then has the classes
    it had, in their order, followed by the new names in theirs, none
    twice; empty names are passed over; [hasClass] answers true for
    exactly these; no other node changes. *)
Theorem addClass_adds_every_name :
  forall (h : Heap) (e : nat) (n : Node) (classes : OneOrMany string),
    h !! e = Some n -> is_element n = true ->
    Forall (fun s => s = "" \/ token s) (toArray classes) ->
    exists h' n',
      addClass (Some e) classes h = Val tt h'
      /\ h' !! e = Some n'
      /\ tokens_of n'
         = foldl ordered_append (tokens_of n)
             (List.filter named (toArray classes))
      /\ (forall t,
            hasClass (Some e) t h'
            = Val (bool_decide (t ∈ tokens_of n
                                \/ (t ∈ toArray classes /\ t <> ""))) h')
      /\ (forall j, j <> e -> h' !! j = h !! j).
Proof.
  intros h e n classes He Hel Hnames.
  destruct (addClass_names e (toArray classes) h n He Hel Hnames)
    as (n' & Hrun & Hel' & Htok).
  exists (<[e := n']> h), n'.
  assert (He' : <[e := n']> h !! e = Some n') by by eapply lookup_insert_here.
  split; [unfold addClass; destruct classes; exact Hrun|].
  split; [done|]. split; [done|]. split.
  - intros t. rewrite (hasClass_spec _ e n') by done. f_equal.
    apply bool_decide_ext. rewrite Htok.
    destruct (ordered_set_from (tokens_of n)
                (List.filter named (toArray classes)) (tokens_of_NoDup n))
      as [_ Hin].
    rewrite Hin, elem_of_filter_bool.
    unfold named. rewrite negb_true_iff, String.eqb_neq. done.
  - intros j Hj. by rewrite list_lookup_insert_ne.
Qed.

(** A [div] of class [a] given [b], an empty name and [a] again. *)
Lemma addClass_adds_every_name_witness :
  let h := [mkNode (Element HTML "div" [("class", "a")]) None [] None] in
  let n := mkNode (Element HTML "div" [("class", "a")]) None [] None in
  let classes := Many ["b"; ""; "a"] in
  exists h' n',
    addClass (Some 0) classes h = Val tt h'
    /\ h' !! 0 = Some n'
    /\ tokens_of n'
       = foldl ordered_append (tokens_of n)
           (List.filter named (toArray classes))
    /\ (forall t,
          hasClass (Some 0) t h'
          = Val (bool_decide (t ∈ tokens_of n
                              \/ (t ∈ toArray classes /\ t <> ""))) h')
    /\ (forall j, j <> 0 -> h' !! j = h !! j).
Proof.
  intros h n classes.
  apply (addClass_adds_every_name h 0 n classes); try reflexivity.
  repeat (apply Forall_cons; split; [first [by left | by right; split]|]).
  by apply Forall_nil.
Defined.

(** X11. [removeClass(elm, classes)], for one name or an array of names
    each empty or free of whitespace, returns, whether the element has the
    classes or not; the element keeps, in their order, the classes that
    are not among the names, and [hasClass] answers true for exactly
    these. *)
Theorem removeClass_removes_every_name :
  forall (h : Heap) (e : nat) (n : Node) (classes : OneOrMany string),
    h !! e = Some n -> is_element n = true ->
    Forall (fun s => s = "" \/ token s) (toArray classes) ->
    exists h' n',
      removeClass (Some e) classes h = Val tt h'
      /\ h' !! e = Some n'
      /\ tokens_of n'
         = List.filter (fun x => bool_decide (x ∉ toArray classes))
             (tokens_of n)
      /\ (forall t,
            hasClass (Some e) t h'
            = Val (bool_decide (t ∈ tokens_of n /\ t ∉ toArray classes)) h').
Proof.
  intros h e n classes He Hel Hnames.
  destruct (removeClass_names e (toArray classes) h n He Hel Hnames)
    as (h' & n' & Hrun & He' & Hel' & Htok).
  exists h', n'.
  split; [unfold removeClass; destruct classes; exact Hrun|].
  split; [done|]. split; [done|].
  intros t. rewrite (hasClass_spec _ e n') by done. f_equal.
  apply bool_decide_ext. rewrite Htok.
  rewrite elem_of_filter_bool.
  by rewrite bool_decide_eq_true.
Qed.

(** A [div] of classes [a b c] losing [c], a class it has not, and [a]. *)
Lemma removeClass_removes_every_name_witness :
  let h := [mkNode (Element HTML "div" [("class", "a b c")]) None [] None] in
  let n := mkNode (Element HTML "div" [("class", "a b c")]) None [] None in
  let classes := Many ["c"; "x"; "a"] in
  exists h' n',
    removeClass (Some 0) classes h = Val tt h'
    /\ h' !! 0 = Some n'
    /\ tokens_of n'
       = List.filter (fun x => bool_decide (x ∉ toArray classes))
           (tokens_of n)
    /\ (forall t,
          hasClass (Some 0) t h'
          = Val (bool_decide (t ∈ tokens_of n /\ t ∉ toArray classes)) h').
Proof.
  intros h n classes.
  apply (removeClass_removes_every_name h 0 n classes); try reflexivity.
  repeat (apply Forall_cons; split; [first [by left | by right; split]|]).
  by apply Forall_nil.
Defined.

(** A root whose second and third children have the class [b]. *)
Lemma child_finds_the_first_with_the_class_witness :
  let h := [Sample.div None [1; 2; 3]; Sample.anchor "a" (Some 0);
            Sample.anchor "b c" (Some 0); Sample.anchor "b" (Some 0)] in
  let n := Sample.div None [1; 2; 3] in
  let className := "b a" in
  exists r,
    child (Some 0) className h = Val r h
    /\ match r with
       | Some c =>
           exists pre post,
             element_ids h (children n) = pre ++ c :: post
             /\ hasClass (Some c) (first_part className) h = Val true h
             /\ forall x, x ∈ pre ->
                  hasClass (Some x) (first_part className) h = Val false h
       | None =>
           forall x, x ∈ element_ids h (children n) ->
             hasClass (Some x) (first_part className) h = Val false h
       end.
Proof.
  intros h n className.
  apply (child_finds_the_first_with_the_class h 0 n className); reflexivity.
Defined.

(** *** [applyStyle] *)








(** X13. [domify] never throws and never changes a node that was there:
    it only allocates, after the heap's nodes, the container and what the
    markup yields.  The node it returns is the first one after the
    container, and its parent is that container -- not null. *)
Theorem domify_only_allocates :
  forall (html : string) (h : Heap),
    match domify html h with
    | Val r h' =>
        exists ids ext,
          h' = h ++ mkNode (Element HTML "div" []) None ids None :: ext
          /\ r = head ids
          /\ forall e, r = Some e ->
               e = S (List.length h)
               /\ parent_of h' e = Some (Some (List.length h))
    | Throw _ _ => False
    | Unmodelled => Html.parse_fragment html = None
    end.
Proof.
  intros html h.
  destruct (Html.parse_fragment html) as [ts|] eqn:Hparse.
  - destruct (domify_parsed h html ts Hparse)
      as (ids & ext & Hrun & _ & Hshape).
    rewrite Hrun. exists ids, ext. split; [done|]. split; [done|].
    intros e He. destruct ts as [|t ts].
    + destruct Hshape as [-> _]. done.
    + destruct Hshape as (Hhead & n & rest & -> & _ & Hpar).
      rewrite Hhead in He. injection He as <-. split; [done|].
      unfold parent_of.
      change (S (List.length h)) with (1 + List.length h).
      rewrite Nat.add_comm.
      rewrite (lookup_app_add h (_ :: n :: rest) 1). simpl. by rewrite Hpar.
  - by rewrite domify_unparsed.
Qed.

End DomUtilsProps.

(** ** More about the Arrows component *)

Module ArrowsProps.
Import Html Dom DomUtils Arrows StringFacts HtmlFacts DomFacts DomUtilsFacts.
Import ArrowsFacts DomUtilsProps.

Lemma bind_run w :
  Arrows.bind w
  = Val tt
      (with_host
         (mkHost (options (host w)) (classes (host w)) (root (host w))
            (length (host w)) (elements_prev (host w))
            (elements_next (host w)) (slider (host w)) (prevIndex (host w))
            (nextIndex (host w)) (path (host w))
            (listeners (host w) ++ bound (prev (self w)) (next (self w)))
            (emitted (host w)) (went (host w))) w).
Proof.
  unfold Arrows.bind, and_then, get_state, on, modify. cbv beta iota.
  unfold with_host. cbn [host heap self options classes root length
    elements_prev elements_next slider prevIndex nextIndex path listeners
    emitted went].
  rewrite <- !app_assoc. reflexivity.
Qed.

(** X15. With both arrows in the markup, [mount] makes no node: it takes
    the two elements, leaves [created] as it was, registers the two click
    listeners and [updateDisabled] for [mounted], [move] and [updated], and
    publishes the pair as [arrows]. *)
Theorem mount_takes_the_arrows_of_the_markup :
  forall (w : World) (p n : nat),
    elements_prev (host w) = Some p -> elements_next (host w) = Some n ->
    exists w',
      mount w = Val tt w'
      /\ heap w' = heap w
      /\ prev (self w') = Some p /\ next (self w') = Some n
      /\ created (self w') = created (self w)
      /\ arrows_prop (self w') = Some (Some p, Some n)
      /\ listeners (host w')
         = listeners (host w) ++ bound (Some p) (Some n)
      /\ emitted (host w') = emitted (host w)
      /\ went (host w') = went (host w).
Proof.
  intros [h [o c r len ep en sl pi ni pa ls em wt] [nm pv nx cl rt cr rq ap]]
    p n Hp Hn.
  simpl in *. subst. eexists. split.
  - unfold mount, and_then, get_state, set_prev, set_next, set_arrows_prop,
      modify, ret.
    cbn -[Arrows.bind]. rewrite bind_run. cbn -[bound]. reflexivity.
  - split_and!; reflexivity.
Qed.

(** The page that brings both arrows. *)
Lemma mount_takes_the_arrows_of_the_markup_witness :
  let w := Sample.marked_up in
  exists w',
    mount w = Val tt w'
    /\ heap w' = heap w
    /\ prev (self w') = Some 2 /\ next (self w') = Some 3
    /\ created (self w') = created (self w)
    /\ arrows_prop (self w') = Some (Some 2, Some 3)
    /\ listeners (host w')
       = listeners (host w) ++ bound (Some 2) (Some 3)
    /\ emitted (host w') = emitted (host w)
    /\ went (host w') = went (host w).
Proof.
  intros w.
  apply (mount_takes_the_arrows_of_the_markup w 2 3); reflexivity.
Defined.

(** X16. With the [arrows] option off and an arrow missing from the markup,
    [mount] makes no node and registers no listener, also for the arrow
    that the markup does bring; [arrows] holds what the markup gave. *)
Theorem mount_without_the_option_binds_nothing :
  forall (w : World),
    elements_prev (host w) = None \/ elements_next (host w) = None ->
    truthy (arrows (options (host w))) = false ->
    exists w',
      mount w = Val tt w'
      /\ heap w' = heap w
      /\ host w' = host w
      /\ prev (self w') = elements_prev (host w)
      /\ next (self w') = elements_next (host w)
      /\ created (self w') = created (self w)
      /\ arrows_prop (self w')
         = Some (elements_prev (host w), elements_next (host w)).
Proof.
  intros [h [o c r len ep en sl pi ni pa ls em wt] [nm pv nx cl rt cr rq ap]]
    Hmiss Hoff.
  simpl in *. eexists. split.
  - unfold mount, and_then, get_state, set_prev, set_next, modify.
    cbn. rewrite Hoff.
    destruct Hmiss as [-> | ->]; [|destruct ep]; reflexivity.
  - split_and!; reflexivity.
Qed.

(** A page that brings the previous arrow only, with the option off. *)
Lemma mount_without_the_option_binds_nothing_witness :
  let w := Sample.switched_off in
  exists w',
    mount w = Val tt w'
    /\ heap w' = heap w
    /\ host w' = host w
    /\ prev (self w') = elements_prev (host w)
    /\ next (self w') = elements_next (host w)
    /\ created (self w') = created (self w)
    /\ arrows_prop (self w')
       = Some (elements_prev (host w), elements_next (host w)).
Proof.
  intros w.
  apply (mount_without_the_option_binds_nothing w); [by right|reflexivity].
Defined.









Lemma and_then_val {S A B} (m : M S A) (k : A -> M S B) s a s' :
  m s = Val a s' -> and_then m k s = k a s'.
Proof. unfold and_then. by intros ->. Qed.








Lemma dom_val {A} (m : M Heap A) w a s :
  m (heap w) = Val a s -> dom m w = Val a (with_heap s w).
Proof. unfold dom, zoom. by intros ->. Qed.




Lemma with_heap_twice h1 h2 w : with_heap h1 (with_heap h2 w) = with_heap h1 w.
Proof. done. Qed.





Lemma with_children_back l (n : Node) :
  with_children (children n) (with_children l n) = n.
Proof. by destruct n. Qed.










Lemma strip_run (h : Heap) e n :
  h !! e = Some n -> is_element n = true ->
  removeAttribute (Some e) (One "disabled") h = Val tt (<[e := strip n]> h).
Proof.
  intros He Hel. unfold is_element in Hel. unfold strip.
  destruct (kind n) as [ns ln attrs|] eqn:Hk; [|done].
  unfold removeAttribute, toArray. cbn [forEach]. unfold and_then.
  rewrite (removeAttribute_one h e n ns ln attrs) by done.
  unfold ret. by destruct ns.
Qed.

Lemma strip_element n : is_element (strip n) = is_element n.
Proof. unfold strip, is_element. by destruct (kind n) eqn:Hk; [rewrite kind_with_kind|rewrite Hk]. Qed.

Lemma strip_parent n : parent (strip n) = parent n.
Proof. unfold strip. by destruct (kind n). Qed.

Lemma strip_children n : children (strip n) = children n.
Proof. unfold strip. by destruct (kind n). Qed.

Lemma attr_remove_twice k l : attr_remove k (attr_remove k l) = attr_remove k l.
Proof.
  unfold attr_remove. induction l as [|[k' v] l IH]; simpl; [done|].
  destruct (String.eqb k' k) eqn:Hk; simpl; [done|]. by rewrite Hk, IH.
Qed.

Lemma strip_twice n : strip (strip n) = strip n.
Proof.
  unfold strip. destruct (kind n) as [ns ln attrs|] eqn:Hk.
  - rewrite kind_with_kind, attr_remove_twice. by destruct n.
  - by rewrite Hk.
Qed.

Lemma strip_disabled n :
  disabled (strip n) = if reflects_disabled n then false else disabled n.
Proof.
  unfold strip, disabled, reflects_disabled.
  destruct (kind n) as [ns ln attrs|] eqn:Hk; [|by rewrite Hk].
  rewrite !kind_with_kind. destruct ns; [|done].
  destruct (existsb _ _); [|done].
  rewrite attr_get_remove. apply bool_decide_eq_false. by intros [? ?].
Qed.

Lemma strip_reads_null (h : Heap) e n :
  h !! e = Some (strip n) -> is_element n = true ->
  getAttribute (Some e) "disabled" h = Val None h.
Proof.
  intros He Hel. unfold is_element in Hel. unfold strip in He.
  destruct (kind n) as [ns ln attrs|] eqn:Hk; [|done].
  erewrite getAttribute_run; [|exact He|apply kind_with_kind].
  destruct ns; simpl; by rewrite attr_get_remove.
Qed.

Lemma sweep_run (w : World) p n pn nn :
  prev (self w) = Some p -> next (self w) = Some n ->
  heap w !! p = Some pn -> heap w !! n = Some nn ->
  is_element pn = true -> is_element nn = true ->
  forEach [prev (self w); next (self w)]
    (fun elm => dom (removeAttribute elm (One "disabled"))) w
  = Val tt (with_heap (swept (heap w) p n) w).
Proof.
  intros Hp Hn Hpn Hnn Hep Hen. rewrite Hp, Hn. cbn [forEach].
  erewrite and_then_val; [|by apply dom_val, strip_run].
  unfold swept. rewrite Hpn. cbv zeta.
  destruct (decide (n = p)) as [->|Hne].
  - rewrite (lookup_insert_here _ p pn) by done.
    erewrite and_then_val; cycle 1.
    { apply dom_val. cbn [heap with_heap]. apply strip_run.
      - by eapply lookup_insert_here.
      - by rewrite strip_element. }
    reflexivity.
  - rewrite list_lookup_insert_ne by done. rewrite Hnn.
    erewrite and_then_val; cycle 1.
    { apply dom_val. cbn [heap with_heap]. apply strip_run; [|done].
      by rewrite list_lookup_insert_ne. }
    reflexivity.
Qed.

Lemma swept_spec (h : Heap) p n pn nn :
  h !! p = Some pn -> h !! n = Some nn ->
  (forall j, parent_of (swept h p n) j = parent_of h j)
  /\ (forall j, children_of (swept h p n) j = children_of h j)
  /\ (forall j, j <> p -> j <> n -> swept h p n !! j = h !! j)
  /\ swept h p n !! p = Some (strip pn)
  /\ swept h p n !! n = Some (strip nn)
  /\ List.length (swept h p n) = List.length h.
Proof.
  intros Hp Hn. unfold swept. rewrite Hp. cbv zeta.
  destruct (decide (n = p)) as [->|Hne].
  - rewrite (lookup_insert_here _ p pn) by done.
    rewrite list_insert_insert_eq, strip_twice.
    assert (pn = nn) as <- by congruence.
    split_and!.
    + intros j. unfold parent_of.
      destruct (decide (j = p)) as [->|Hj].
      * rewrite (lookup_insert_here _ p pn), Hp by done. simpl.
        by rewrite strip_parent.
      * by rewrite list_lookup_insert_ne.
    + intros j. unfold children_of.
      destruct (decide (j = p)) as [->|Hj].
      * rewrite (lookup_insert_here _ p pn), Hp by done. simpl.
        by rewrite strip_children.
      * by rewrite list_lookup_insert_ne.
    + intros j Hj _. by rewrite list_lookup_insert_ne.
    + by eapply lookup_insert_here.
    + by eapply lookup_insert_here.
    + by rewrite length_insert.
  - rewrite list_lookup_insert_ne by done. rewrite Hn.
    split_and!.
    + intros j. unfold parent_of.
      destruct (decide (j = n)) as [->|Hjn].
      { rewrite (lookup_insert_here _ n nn), Hn
          by by rewrite list_lookup_insert_ne.
        simpl. by rewrite strip_parent. }
      rewrite list_lookup_insert_ne by done.
      destruct (decide (j = p)) as [->|Hjp].
      { rewrite (lookup_insert_here _ p pn), Hp by done. simpl.
        by rewrite strip_parent. }
      by rewrite list_lookup_insert_ne.
    + intros j. unfold children_of.
      destruct (decide (j = n)) as [->|Hjn].
      { rewrite (lookup_insert_here _ n nn), Hn
          by by rewrite list_lookup_insert_ne.
        simpl. by rewrite strip_children. }
      rewrite list_lookup_insert_ne by done.
      destruct (decide (j = p)) as [->|Hjp].
      { rewrite (lookup_insert_here _ p pn), Hp by done. simpl.
        by rewrite strip_children. }
      by rewrite list_lookup_insert_ne.
    + intros j Hjp Hjn. by rewrite !list_lookup_insert_ne.
    + rewrite list_lookup_insert_ne by done. by eapply lookup_insert_here.
    + eapply lookup_insert_here. by rewrite list_lookup_insert_ne.
    + by rewrite !length_insert.
Qed.

Lemma attr_key_disabled ns : attr_key ns "disabled" = "disabled".
Proof. by destruct ns. Qed.

Lemma strip_keeps (h h' : Heap) e n other :
  h !! e = Some n -> h' !! e = Some (strip n) -> is_element n = true ->
  lower other <> "disabled" ->
  exists r, getAttribute (Some e) other h = Val r h
            /\ getAttribute (Some e) other h' = Val r h'.
Proof.
  intros He He' Hel Hne. unfold is_element in Hel. unfold strip in He'.
  destruct (kind n) as [ns ln attrs|] eqn:Hk; [|done].
  eexists. split; [by eapply getAttribute_run|].
  erewrite getAttribute_run; [|exact He'|apply kind_with_kind].
  rewrite attr_get_remove_ne; [done|].
  destruct ns; simpl; [done|]. intros ->. by apply Hne.
Qed.

(** X20. With arrows that [mount] did not fabricate, [destroy] returns
    and removes no node: it takes the [disabled] attribute off the two
    arrows and does nothing else.  Each arrow is the node it was but for
    that attribute -- its other attributes read as before -- every other
    node is untouched, every node keeps its parent and children, and the
    component's variables and the listeners stay.  An arrow that is a form
    control is enabled again, while on any other element the [disabled]
    property that [updateDisabled] wrote stays as it was. *)
Theorem destroy_only_strips_disabled :
  forall (w : World) (p n : nat) (pn nn : Node),
    created (self w) = false ->
    prev (self w) = Some p -> next (self w) = Some n ->
    heap w !! p = Some pn -> heap w !! n = Some nn ->
    is_element pn = true -> is_element nn = true ->
    exists w',
      destroy w = Val tt w'
      /\ host w' = host w /\ self w' = self w
      /\ List.length (heap w') = List.length (heap w)
      /\ heap w' !! p = Some (strip pn) /\ heap w' !! n = Some (strip nn)
      /\ (forall j, j <> p -> j <> n -> heap w' !! j = heap w !! j)
      /\ (forall j, parent_of (heap w') j = parent_of (heap w) j)
      /\ (forall j, children_of (heap w') j = children_of (heap w) j)
      /\ (forall e, e = p \/ e = n ->
            getAttribute (Some e) "disabled" (heap w') = Val None (heap w')
            /\ forall other, lower other <> "disabled" ->
                 exists r,
                   getAttribute (Some e) other (heap w) = Val r (heap w)
                   /\ getAttribute (Some e) other (heap w')
                      = Val r (heap w'))
      /\ disabled (strip pn)
         = (if reflects_disabled pn then false else disabled pn)
      /\ disabled (strip nn)
         = (if reflects_disabled nn then false else disabled nn).
Proof.
  intros w p n pn nn Hc Hp Hn Hpn Hnn Hep Hen.
  destruct (swept_spec (heap w) p n pn nn Hpn Hnn)
    as (H1 & H2 & H3 & H4 & H5 & H6).
  exists (with_heap (swept (heap w) p n) w).
  split.
  { unfold destroy. erewrite and_then_val; [|reflexivity].
    erewrite and_then_val; [|by eapply sweep_run].
    by rewrite Hc. }
  cbn [heap host self with_heap].
  split_and!; try done.
  - intros e [-> | ->]; (split; [by eapply strip_reads_null|]);
      intros other Hne; by eapply strip_keeps.
  - apply strip_disabled.
  - apply strip_disabled.
Qed.

(** The page with buttons, the previous one disabled: it is enabled
    again and keeps its [id] and its class. *)
Lemma destroy_only_strips_disabled_witness :
  let w := Sample.buttoned_updated in
  let pn := mkNode (Element HTML "button"
                      [("id", "p"); ("class", "splide__arrow--prev");
                       ("disabled", "")]) (Some 0) [] None in
  let nn := Sample.knob "n" "splide__arrow--next" (Some 0) in
  exists w',
    destroy w = Val tt w'
    /\ host w' = host w /\ self w' = self w
    /\ List.length (heap w') = List.length (heap w)
    /\ heap w' !! 1 = Some (strip pn) /\ heap w' !! 2 = Some (strip nn)
    /\ (forall j, j <> 1 -> j <> 2 -> heap w' !! j = heap w !! j)
    /\ (forall j, parent_of (heap w') j = parent_of (heap w) j)
    /\ (forall j, children_of (heap w') j = children_of (heap w) j)
    /\ (forall e, e = 1 \/ e = 2 ->
          getAttribute (Some e) "disabled" (heap w') = Val None (heap w')
          /\ forall other, lower other <> "disabled" ->
               exists r,
                 getAttribute (Some e) other (heap w) = Val r (heap w)
                 /\ getAttribute (Some e) other (heap w')
                    = Val r (heap w'))
    /\ disabled (strip pn)
       = (if reflects_disabled pn then false else disabled pn)
    /\ disabled (strip nn)
       = (if reflects_disabled nn then false else disabled nn).
Proof.
  intros w pn nn.
  apply (destroy_only_strips_disabled w 1 2 pn nn); reflexivity.
Defined.

(** *** What [destroy] never does *)

Lemma dom_only_ret {A} (a : A) : dom_only (ret a).
Proof. by intros w. Qed.

Lemma dom_only_throw {A} e : dom_only (@throw World A e).
Proof. by intros w. Qed.

Lemma dom_only_get : dom_only (@get_state World).
Proof. by intros w. Qed.

Lemma dom_only_dom {A} (m : M Heap A) : dom_only (dom m).
Proof. intros w. unfold dom, zoom. by destruct (m (heap w)). Qed.

Lemma dom_only_bind {A B} (m : M World A) (k : A -> M World B) :
  dom_only m -> (forall a, dom_only (k a)) -> dom_only (and_then m k).
Proof.
  intros Hm Hk w. unfold and_then. specialize (Hm w).
  destruct (m w) as [a w1|e w1|]; [|done|done].
  specialize (Hk a w1). destruct Hm as [Hh Hs].
  destruct (k a w1); [|by rewrite <- Hh, <- Hs|done].
  by rewrite <- Hh, <- Hs.
Qed.

Lemma dom_only_forEach {A} (l : list A) (f : A -> M World unit) :
  (forall a, dom_only (f a)) -> dom_only (forEach l f).
Proof.
  intros Hf. induction l as [|x l IH]; simpl; [apply dom_only_ret|].
  apply dom_only_bind; [apply Hf | intros _; exact IH].
Qed.

(** X21. Whatever the state, and whether it returns or throws, [destroy]
    works on the DOM only: it unregisters no listener, sends no
    notification, and resets neither [created] nor the two arrows -- the
    component's variables and the host are as before -- and it destroys
    no node. *)
Theorem destroy_touches_the_dom_only :
  forall (w : World),
    match destroy w with
    | Val _ w' | Throw _ w' =>
        host w' = host w /\ self w' = self w
        /\ List.length (heap w) <= List.length (heap w')
    | Unmodelled => True
    end.
Proof.
  intros w.
  assert (Hd : dom_only destroy).
  { unfold destroy. apply dom_only_bind; [apply dom_only_get | intros w0].
    apply dom_only_bind.
    - apply dom_only_forEach. intros elm. apply dom_only_dom.
    - intros _. destruct (created (self w0)); [|apply dom_only_ret].
      destruct (prev (self w0)); [|apply dom_only_throw].
      apply dom_only_bind; [apply dom_only_dom | intros wrapper].
      apply dom_only_dom. }
  pose proof (quiet_destroy w) as Hq. specialize (Hd w).
  unfold ensures, env_step in Hq.
  destruct (destroy w); [|..|done]; split_and!; tauto.
Qed.



(** *** [onClick] *)

Lemma nzhead_head d x : Decimal.nzhead d <> Decimal.D0 x.
Proof. induction d; simpl; done. Qed.

(** The decimal numeral of a positive integer does not start with a
    zero. *)
Lemma no_leading_zero q rest :
  NilZero.string_of_uint (Pos.to_uint q) <> String "0" rest.
Proof.
  pose proof (DecimalPos.Unsigned.to_uint_nonzero q) as Hnz.
  pose proof (DecimalPos.Unsigned.to_of (Pos.to_uint q)) as Hnorm.
  rewrite DecimalPos.Unsigned.of_to in Hnorm. simpl in Hnorm.
  destruct (Pos.to_uint q) as [|d|d|d|d|d|d|d|d|d|d] eqn:Hq; try done.
  intros _. unfold Decimal.unorm in Hnorm. simpl in Hnorm.
  destruct (Decimal.nzhead d) eqn:Hd; try discriminate.
  - injection Hnorm as Hd'. subst d. by apply Hnz.
  - by apply nzhead_head in Hd.
Qed.

(** The decimal numeral of a positive integer reads back as that
    integer. *)
Lemma numeral_reads_back k : (0 < k)%Z ->
  Z.of_int <$> NilZero.int_of_string (toString (VNum k)) = Some k.
Proof.
  intros Hk. unfold toString. destruct k as [|q|q]; [lia| |lia].
  rewrite NilZero.isi; [|simpl; intros [= Hq];
                          by apply (DecimalPos.Unsigned.to_uint_nonnil q)
                        |done].
  simpl. f_equal. apply (DecimalZ.of_to (Z.pos q)).
Qed.

(** X22. A click always returns and asks the controller to go exactly
    once, touching nothing else.  The control is [<] (prev) or [>] (next)
    when the [perMove] option is falsy -- so [perMove: 0] pages like no
    [perMove] at all -- and otherwise the sign [-] (prev) or [+] (next)
    followed by [perMove]: by its decimal numeral, without a leading zero,
    for a positive safe integer; by the string itself for a string; by
    [true] for [true].  The other arrow never asks for the same thing. *)
Theorem onClick_asks_the_controller :
  forall (prev : bool) (w : World),
    let perMove := perMove (options (host w)) in
    let sign := if prev then "-" else "+" in
    exists w' control,
      onClick prev w = Val tt w'
      /\ heap w' = heap w /\ self w' = self w
      /\ listeners (host w') = listeners (host w)
      /\ emitted (host w') = emitted (host w)
      /\ went (host w') = went (host w) ++ [control]
      /\ (truthy perMove = false -> control = if prev then "<" else ">")
      /\ (forall k, perMove = VNum k -> (0 < k <= MAX_SAFE_INTEGER)%Z ->
            exists digits,
              control = (sign ++ digits)%string
              /\ Z.of_int <$> NilZero.int_of_string digits = Some k
              /\ forall rest, digits <> String "0" rest)
      /\ (forall s, perMove = VStr s -> s <> "" ->
            control = (sign ++ s)%string)
      /\ (perMove = VBool true -> control = (sign ++ "true")%string)
      /\ (forall w'' other,
            onClick (negb prev) w = Val tt w'' ->
            went (host w'') = went (host w) ++ [other] ->
            other <> control).
Proof.
  intros b w pm sign. eexists _, _. split.
  { unfold onClick, and_then, get_state, go, modify. cbv beta iota zeta.
    reflexivity. }
  cbn [heap host self with_host went listeners emitted].
  fold pm. fold sign.
  split_and!; try reflexivity; cycle 4.
  { intros w2 other Hrun Hwent.
    unfold onClick, and_then, get_state, go, modify in Hrun.
    cbv beta iota zeta in Hrun. injection Hrun as <-.
    cbn [heap host self with_host went] in Hwent.
    apply app_inv_head in Hwent. injection Hwent as <-. fold pm.
    unfold sign. destruct (truthy pm), b; simpl; rewrite ?append_cons; done. }
  - by intros ->.
  - intros k Hpm [Hk _]. rewrite Hpm. simpl truthy.
    rewrite (proj2 (Z.eqb_neq k 0)) by lia. simpl negb. cbv iota.
    eexists. split; [reflexivity|]. split; [by apply numeral_reads_back|].
    intros rest. unfold toString. destruct k as [|q|q]; [lia| |lia].
    apply no_leading_zero.
  - intros s Hpm Hs. rewrite Hpm. simpl.
    by rewrite (eqb_empty_false s).
  - by intros ->.
Qed.

(** A click on the previous arrow with [perMove: 3]. *)
Lemma onClick_asks_the_controller_witness :
  exists w' control digits,
    onClick true Sample.three_per_move = Val tt w'
    /\ went (host w') = went (host Sample.three_per_move) ++ [control]
    /\ control = ("-" ++ digits)%string
    /\ Z.of_int <$> NilZero.int_of_string digits = Some 3%Z
    /\ forall rest, digits <> String "0" rest.
Proof.
  destruct (onClick_asks_the_controller true Sample.three_per_move)
    as (w' & control & Hrun & _ & _ & _ & _ & Hwent & _ & Hnum & _).
  destruct (Hnum 3%Z) as (digits & Hc & Hread & Hzero);
    [reflexivity | by vm_compute |].
  exists w', control, digits. done.
Defined.

(** *** [updateDisabled] *)

Lemma set_disabled_run (h : Heap) i n b :
  h !! i = Some n -> sheet_owner n = false ->
  set_disabled i b h = Val tt (<[i := flagged b n]> h).
Proof.
  intros Hi Hs. unfold set_disabled, and_then, node, flagged.
  rewrite Hi, Hs. destruct (reflects_disabled n) eqn:Hr; [|done].
  unfold reflects_disabled in Hr. by destruct (kind n).
Qed.

Lemma attr_set_twice k v l : attr_set k v (attr_set k v l) = attr_set k v l.
Proof.
  induction l as [|[k' v'] l IH]; simpl.
  - by rewrite String.eqb_refl.
  - destruct (String.eqb k' k) eqn:Hk; simpl; rewrite Hk; [done|].
    by rewrite IH.
Qed.

Lemma flagged_twice b n : flagged b (flagged b n) = flagged b n.
Proof.
  unfold flagged. destruct (reflects_disabled n) eqn:Hr.
  - unfold reflects_disabled in *.
    destruct (kind n) as [ns ln attrs|] eqn:Hk; [|done].
    rewrite !kind_with_kind. destruct ns; [|done]. rewrite Hr.
    destruct b; [rewrite attr_set_twice|rewrite attr_remove_twice];
      by destruct n.
  - unfold reflects_disabled in *. rewrite kind_with_expando, Hr.
    by destruct n.
Qed.

Lemma flagged_sheet_owner b n : sheet_owner (flagged b n) = sheet_owner n.
Proof.
  unfold flagged, sheet_owner. destruct (reflects_disabled n).
  - destruct (kind n) as [ns ln attrs|] eqn:Hk; [|by rewrite Hk].
    by rewrite kind_with_kind.
  - by rewrite kind_with_expando.
Qed.

Lemma updateDisabled_run (w : World) p n pn nn :
  prev (self w) = Some p -> next (self w) = Some n -> p <> n ->
  heap w !! p = Some pn -> heap w !! n = Some nn ->
  sheet_owner pn = false -> sheet_owner nn = false ->
  let off := negb (perPage (options (host w)) <? length (host w))%Z in
  let bp := (prevIndex (host w) <? 0)%Z || off in
  let bn := (nextIndex (host w) <? 0)%Z || off in
  exists w',
    updateDisabled w = Val tt w'
    /\ heap w' = <[n := flagged bn nn]> (<[p := flagged bp pn]> (heap w))
    /\ self w' = self w
    /\ options (host w') = options (host w)
    /\ length (host w') = length (host w)
    /\ prevIndex (host w') = prevIndex (host w)
    /\ nextIndex (host w') = nextIndex (host w)
    /\ listeners (host w') = listeners (host w)
    /\ went (host w') = went (host w)
    /\ emitted (host w')
       = emitted (host w)
         ++ [((name (self w) ++ ":updated")%string,
              [AElm (Some p); AElm (Some n); ANum (prevIndex (host w));
               ANum (nextIndex (host w))])].
Proof.
  intros Hp Hn Hpn Hnp Hnn Hsp Hsn off bp bn.
  eexists. split.
  { unfold updateDisabled. erewrite and_then_val; [|reflexivity].
    cbv zeta. rewrite Hp, Hn.
    erewrite and_then_val; [|by apply dom_val, set_disabled_run].
    erewrite and_then_val; cycle 1.
    { apply dom_val. cbn [heap with_heap]. apply set_disabled_run; [|done].
      by rewrite list_lookup_insert_ne. }
    reflexivity. }
  split_and!; reflexivity.
Qed.

(** X23. Running [updateDisabled] again with nothing changed in between
    leaves the DOM as the first run left it: the second run only sends its
    notification once more. *)
Theorem updateDisabled_twice_changes_nothing_more :
  forall (w : World) (p n : nat) (pn nn : Node),
    prev (self w) = Some p -> next (self w) = Some n -> p <> n ->
    heap w !! p = Some pn -> heap w !! n = Some nn ->
    sheet_owner pn = false -> sheet_owner nn = false ->
    exists w1 w2,
      updateDisabled w = Val tt w1
      /\ updateDisabled w1 = Val tt w2
      /\ heap w2 = heap w1 /\ self w2 = self w1
      /\ listeners (host w2) = listeners (host w1)
      /\ exists note,
           emitted (host w1) = emitted (host w) ++ [note]
           /\ emitted (host w2) = emitted (host w) ++ [note; note].
Proof.
  intros w p n pn nn Hp Hn Hpn Hnp Hnn Hsp Hsn.
  destruct (updateDisabled_run w p n pn nn Hp Hn Hpn Hnp Hnn Hsp Hsn)
    as (w1 & Hrun1 & Hh1 & Hs1 & Ho1 & Hl1 & Hpi1 & Hni1 & Hls1 & _ & He1).
  set (off := negb (perPage (options (host w)) <? length (host w))%Z) in *.
  set (bp := (prevIndex (host w) <? 0)%Z || off) in *.
  set (bn := (nextIndex (host w) <? 0)%Z || off) in *.
  assert (Hp1 : heap w1 !! p = Some (flagged bp pn)).
  { rewrite Hh1, list_lookup_insert_ne by done. by eapply lookup_insert_here. }
  assert (Hn1 : heap w1 !! n = Some (flagged bn nn)).
  { rewrite Hh1. eapply lookup_insert_here.
    by rewrite list_lookup_insert_ne. }
  destruct (updateDisabled_run w1 p n (flagged bp pn) (flagged bn nn))
    as (w2 & Hrun2 & Hh2 & Hs2 & _ & _ & _ & _ & Hls2 & _ & He2);
    [congruence|congruence|done|done|done|by rewrite flagged_sheet_owner
    |by rewrite flagged_sheet_owner|].
  exists w1, w2. split; [done|]. split; [done|].
  split.
  { rewrite Hh2, Ho1, Hl1, Hpi1, Hni1. fold off bp bn.
    rewrite !flagged_twice.
    rewrite (list_insert_id (heap w1) p) by done.
    by rewrite list_insert_id. }
  split; [done|]. split; [done|].
  eexists. split; [exact He1|].
  rewrite He2, He1, Hs1, Hpi1, Hni1, <- app_assoc. done.
Qed.

(** The bare page after [mount]. *)
Lemma updateDisabled_twice_changes_nothing_more_witness :
  let w := Sample.bare_mounted in
  exists w1 w2,
    updateDisabled w = Val tt w1
    /\ updateDisabled w1 = Val tt w2
    /\ heap w2 = heap w1 /\ self w2 = self w1
    /\ listeners (host w2) = listeners (host w1)
    /\ exists note,
         emitted (host w1) = emitted (host w) ++ [note]
         /\ emitted (host w2) = emitted (host w) ++ [note; note].
Proof.
  intros w.
  eapply (updateDisabled_twice_changes_nothing_more w 3 7);
    first [reflexivity | lia].
Defined.

End ArrowsProps.
